(** * kaartcontrole: the value-tree comparator of [cmd/main.go]

    A shallow embedding of [shouldIgnore] and [validateChartValues] and of
    the parts of the Go runtime they rely on ([strings.HasPrefix],
    [reflect.DeepEqual], [reflect.TypeOf], map lookup and [range]).

    Modelling decisions.
    - A Go [string] is a byte sequence: [String.string].
    - A value of type [interface{}] is one of the dynamic values a decoded
      YAML document (or a Go literal of the tests) holds: [nil], [bool],
      [int], [float64], [string], [[]interface{}], [map[string]interface{}].
      Trees are finite (an inductive type), values are not aliased.
    - A Go map is an association list. [range] visits the entries in the
      order of the list, so one Go map is represented by every ordering of
      its entries and a statement quantified over all lists covers every
      iteration order of the Go runtime. Lookup takes the first entry with
      the key; a Go map has each key once ([WfMap]).
    - A [map] argument that may be [nil] and is tested against [nil]
      ([overridesValues]) is an [option]; ranging over, or indexing, a [nil]
      map behaves as on an empty one, so the two other trees are plain lists.
    - [*issuesFound] and the standard output are threaded as a state [St];
      every [fmt.Printf] of the comparator appends one structured [Issue]. *)

From Stdlib Require Import String Ascii List ZArith Bool Arith Lia Permutation
  Sorted.
Import ListNotations.

Local Open Scope string_scope.
Local Open Scope list_scope.

(** ** Go runtime: strings *)

(** [strings.HasPrefix(s, prefix)]:
    [len(s) >= len(prefix) && s[:len(prefix)] == prefix]. *)
Fixpoint HasPrefix (s prefix : string) {struct prefix} : bool :=
  match prefix with
  | EmptyString => true
  | String c prefix' =>
      match s with
      | EmptyString => false
      | String d s' => Ascii.eqb d c && HasPrefix s' prefix'
      end
  end.

(** ** Go runtime: dynamic values *)

(** The dynamic type of a non-nil interface value, as [reflect.TypeOf]
    returns it and as [%T] prints it. *)
Inductive GoType : Type :=
| TBool      (* bool *)
| TInt       (* int *)
| TFloat64   (* float64 *)
| TString    (* string *)
| TSlice     (* []interface {} *)
| TMap.      (* map[string]interface {} *)

Definition GoType_eqb (a b : GoType) : bool :=
  match a, b with
  | TBool, TBool | TInt, TInt | TFloat64, TFloat64
  | TString, TString | TSlice, TSlice | TMap, TMap => true
  | _, _ => false
  end.

#[local] Set Warnings "-register-all".

(** A [float64] is kept as its IEEE 754 bit pattern, [0 <= bits < 2^64]. *)
Inductive Value : Type :=
| VNil
| VBool (b : bool)
| VInt (n : Z)
| VFloat64 (bits : Z)
| VString (s : string)
| VSlice (elems : list Value)
| VMap (entries : list (string * Value)).

(** [map[string]interface{}] *)
Definition Map : Type := list (string * Value).

(** [reflect.TypeOf(v)]; [None] is the nil [reflect.Type] of a nil
    interface. *)
Definition TypeOf (v : Value) : option GoType :=
  match v with
  | VNil => None
  | VBool _ => Some TBool
  | VInt _ => Some TInt
  | VFloat64 _ => Some TFloat64
  | VString _ => Some TString
  | VSlice _ => Some TSlice
  | VMap _ => Some TMap
  end.

(** [v, ok := m[key]] *)
Fixpoint lookup (key : string) (m : Map) : option Value :=
  match m with
  | [] => None
  | (k, v) :: rest => if String.eqb key k then Some v else lookup key rest
  end.

Definition keys (m : Map) : list string := map fst m.

(** IEEE 754 binary64: exponent bits all ones and a non-zero fraction. *)
Definition float64_isNaN (bits : Z) : bool :=
  (Z.land (Z.shiftr bits 52) 2047 =? 2047)%Z
  && negb (Z.land bits (2 ^ 52 - 1) =? 0)%Z.

(** [+0] and [-0]: everything but the sign bit is zero. *)
Definition float64_isZero (bits : Z) : bool :=
  (Z.land bits (2 ^ 63 - 1) =? 0)%Z.

(** Go's [==] on [float64]: NaN equals nothing, [+0 == -0]. *)
Definition float64_eq (a b : Z) : bool :=
  negb (float64_isNaN a) && negb (float64_isNaN b)
  && ((a =? b)%Z || (float64_isZero a && float64_isZero b)).

(** [reflect.DeepEqual(x, y)] on the values above: a nil interface equals
    only a nil interface, values of different dynamic types differ, scalars
    are compared with [==], slices by length and element-wise, maps by
    length and, for every key of [x], presence in [y] with deeply equal
    values. (The shortcut of [DeepEqual] for two slices or two maps that
    share their storage does not arise: the trees come from separate
    decodings.) *)
Fixpoint DeepEqual (x y : Value) {struct x} : bool :=
  match x, y with
  | VNil, VNil => true
  | VBool a, VBool b => Bool.eqb a b
  | VInt a, VInt b => (a =? b)%Z
  | VFloat64 a, VFloat64 b => float64_eq a b
  | VString a, VString b => String.eqb a b
  | VSlice xs, VSlice ys =>
      (fix elems (xs ys : list Value) {struct xs} : bool :=
         match xs, ys with
         | [], [] => true
         | x1 :: xs', y1 :: ys' => DeepEqual x1 y1 && elems xs' ys'
         | _, _ => false
         end) xs ys
  | VMap xm, VMap ym =>
      (length xm =? length ym)%nat
      && (fix entries (xm : Map) {struct xm} : bool :=
            match xm with
            | [] => true
            | (k, x1) :: xm' =>
                match lookup k ym with
                | Some y1 => DeepEqual x1 y1 && entries xm'
                | None => false
                end
            end) xm
  | _, _ => false
  end.

(** ** The comparator's observable state *)

(** One line printed by the comparator. *)
Inductive Issue : Type :=
| UnexpectedKey (path : string)
    (* "Unexpected key: '%s' is not defined in chart defaults" *)
| TypeMismatchMap (path : string) (got : option GoType)
    (* "Type mismatch for '%s': expected map, got %T" *)
| RedundantValue (path : string) (value : Value)
    (* "Redundant value: '%s' matches default value: %v" *)
| TypeMismatch (path : string) (expected got : GoType).
    (* "Type mismatch for '%s': expected %T, got %T" *)

Definition issuePath (i : Issue) : string :=
  match i with
  | UnexpectedKey p | TypeMismatchMap p _
  | RedundantValue p _ | TypeMismatch p _ _ => p
  end.

(** [issuesFound] is the cell behind the [*bool] argument, [stdout] the
    lines printed so far. [iterations] is a ghost counter, absent from the
    source: the number of executions of the body of the [range] loop, kept
    to state the running-time bound. *)
Record St : Type := mkSt {
  issuesFound : bool;
  stdout : list Issue;
  iterations : nat
}.

Definition init : St := mkSt false [] 0.

(** [fmt.Printf(...); *issuesFound = true] *)
Definition report (i : Issue) (st : St) : St :=
  mkSt true (stdout st ++ [i]) (iterations st).

(** Ghost: one more execution of the loop body. *)
Definition tick (st : St) : St :=
  mkSt (issuesFound st) (stdout st) (S (iterations st)).

(** ** cmd/main.go *)

Definition IgnoreList : Type := list string.

Fixpoint shouldIgnore (path : string) (ignoreList : IgnoreList) : bool :=
  match ignoreList with
  | [] => false
  | ignore :: rest =>
      if HasPrefix path ignore then true else shouldIgnore path rest
  end.

(** [fullKey := key; if prefix != "" { fullKey = prefix + "." + key }] *)
Definition fullKeyOf (prefix key : string) : string :=
  if String.eqb prefix "" then key else prefix ++ "." ++ key.

(** The map handed down as [overridesValues] to the recursive call. *)
Definition overridesMapOf (overridesValues : option Map) (key : string) : Map :=
  match overridesValues with
  | Some ov =>
      match lookup key ov with
      | Some (VMap overridesSubMap) => overridesSubMap
      | _ => []
      end
  | None => []
  end.

(** The test guarding the [continue] of the redundant-value branch. *)
Definition overrideResets (overridesValues : option Map) (key : string)
    (providedValue : Value) : bool :=
  match overridesValues with
  | Some ov =>
      match lookup key ov with
      | Some overrideValue => negb (DeepEqual overrideValue providedValue)
      | None => false
      end
  | None => false
  end.

(** The part of the loop body below the map case: [defaultValue] is not a
    map. *)
Definition compareLeaf (overridesValues : option Map) (key fullKey : string)
    (defaultValue providedValue : Value) (st : St) : St :=
  if DeepEqual defaultValue providedValue then
    if overrideResets overridesValues key providedValue then st
    else report (RedundantValue fullKey providedValue) st
  else
    match TypeOf defaultValue, TypeOf providedValue with
    | Some defaultType, Some providedType =>
        if GoType_eqb defaultType providedType then st
        else report (TypeMismatch fullKey defaultType providedType) st
    | _, _ => st
    end.

(** [validateChartValues], by recursion on the provided tree: the function
    is given the provided map as the value [VMap providedValues], so that
    the recursive call on [providedMap] is structural. The inner [range] is
    the [for key, providedValue := range providedValues] loop. *)
Fixpoint validateTree (provided : Value) (defaultValues : Map)
    (overridesValues : option Map) (prefix : string)
    (ignoreList : IgnoreList) (st : St) {struct provided} : St :=
  match provided with
  | VMap providedValues =>
      (fix range (entries : Map) (st : St) {struct entries} : St :=
         match entries with
         | [] => st
         | (key, providedValue) :: rest =>
             let st := tick st in
             let fullKey := fullKeyOf prefix key in
             range rest
               (if shouldIgnore fullKey ignoreList then st
                else
                  match lookup key defaultValues with
                  | None => st (* the report is commented out *)
                  | Some (VMap defaultMap) =>
                      match providedValue with
                      | VMap _ =>
                          validateTree providedValue defaultMap
                            (Some (overridesMapOf overridesValues key))
                            fullKey ignoreList st
                      | _ =>
                          report (TypeMismatchMap fullKey (TypeOf providedValue)) st
                      end
                  | Some defaultValue =>
                      compareLeaf overridesValues key fullKey
                        defaultValue providedValue st
                  end)
         end) providedValues st
  | _ => st
  end.

(** [validateChartValues(defaultValues, providedValues, overridesValues,
    prefix, issuesFound, ignoreList)]; the state, which holds the cell
    behind [issuesFound], comes last. *)
Definition validateChartValues (defaultValues providedValues : Map)
    (overridesValues : option Map) (prefix : string)
    (ignoreList : IgnoreList) (st : St) : St :=
  validateTree (VMap providedValues) defaultValues overridesValues prefix
    ignoreList st.

(** ** The variant without an overrides tree

    The second copy of [main.go] in the repository:
    [validateChartValues(defaultValues, providedValues, prefix, issuesFound,
    ignoreList)]. It has no [overridesValues] argument and reports a key
    that the defaults do not have. *)
Module Baseline.

Definition compareLeaf (fullKey : string)
    (defaultValue providedValue : Value) (st : St) : St :=
  if DeepEqual defaultValue providedValue then
    report (RedundantValue fullKey providedValue) st
  else
    match TypeOf defaultValue, TypeOf providedValue with
    | Some defaultType, Some providedType =>
        if GoType_eqb defaultType providedType then st
        else report (TypeMismatch fullKey defaultType providedType) st
    | _, _ => st
    end.

Fixpoint validateTree (provided : Value) (defaultValues : Map)
    (prefix : string) (ignoreList : IgnoreList) (st : St)
    {struct provided} : St :=
  match provided with
  | VMap providedValues =>
      (fix range (entries : Map) (st : St) {struct entries} : St :=
         match entries with
         | [] => st
         | (key, providedValue) :: rest =>
             let st := tick st in
             let fullKey := fullKeyOf prefix key in
             range rest
               (if shouldIgnore fullKey ignoreList then st
                else
                  match lookup key defaultValues with
                  | None => report (UnexpectedKey fullKey) st
                  | Some (VMap defaultMap) =>
                      match providedValue with
                      | VMap _ =>
                          validateTree providedValue defaultMap fullKey
                            ignoreList st
                      | _ =>
                          report (TypeMismatchMap fullKey (TypeOf providedValue)) st
                      end
                  | Some defaultValue =>
                      compareLeaf fullKey defaultValue providedValue st
                  end)
         end) providedValues st
  | _ => st
  end.

Definition validateChartValues (defaultValues providedValues : Map)
    (prefix : string) (ignoreList : IgnoreList) (st : St) : St :=
  validateTree (VMap providedValues) defaultValues prefix ignoreList st.

End Baseline.

(** ** Auxiliary notions used in the statements *)

(** The type assertion [v.(map[string]interface{})] succeeds. *)
Definition isMap (v : Value) : bool :=
  match v with
  | VMap _ => true
  | _ => false
  end.

(** Number of keys of a provided tree, at every depth reached through
    maps. *)
Fixpoint keyCount (v : Value) : nat :=
  match v with
  | VMap m =>
      (fix count (m : Map) : nat :=
         match m with
         | [] => 0
         | (_, v1) :: rest => S (keyCount v1 + count rest)
         end) m
  | _ => 0
  end.

Definition treeSize (m : Map) : nat := keyCount (VMap m).

(** Sequential composition of what two runs did to the state. *)
Definition St_app (st r : St) : St :=
  mkSt (issuesFound st || issuesFound r)
       (stdout st ++ stdout r)
       (iterations st + iterations r).

(** What one execution of the loop body does, once [tick] has been
    counted. *)
Inductive Outcome : Type :=
| Skip
| Emit (i : Issue)
| Recurse (defaultMap providedMap overridesMap : Map) (fullKey : string).

Definition leafOutcome (overridesValues : option Map) (key fullKey : string)
    (defaultValue providedValue : Value) : Outcome :=
  if DeepEqual defaultValue providedValue then
    if overrideResets overridesValues key providedValue then Skip
    else Emit (RedundantValue fullKey providedValue)
  else
    match TypeOf defaultValue, TypeOf providedValue with
    | Some defaultType, Some providedType =>
        if GoType_eqb defaultType providedType then Skip
        else Emit (TypeMismatch fullKey defaultType providedType)
    | _, _ => Skip
    end.

Definition outcome (defaultValues : Map) (overridesValues : option Map)
    (prefix : string) (ignoreList : IgnoreList) (key : string)
    (providedValue : Value) : Outcome :=
  let fullKey := fullKeyOf prefix key in
  if shouldIgnore fullKey ignoreList then Skip
  else
    match lookup key defaultValues with
    | None => Skip
    | Some defaultValue =>
        match defaultValue, providedValue with
        | VMap defaultMap, VMap providedMap =>
            Recurse defaultMap providedMap
              (overridesMapOf overridesValues key) fullKey
        | VMap _, _ => Emit (TypeMismatchMap fullKey (TypeOf providedValue))
        | _, _ =>
            leafOutcome overridesValues key fullKey defaultValue providedValue
        end
    end.

(** The flag is set exactly when a line has been printed. *)
Definition flagMatches (st : St) : Prop :=
  issuesFound st = true <-> stdout st <> [].

(** ** What one key contributes *)

(** The lines printed while the loop body runs for the entry
    [(key, providedValue)], recursive call included. *)
Definition emittedFor (D : Map) (O : option Map) (prefix : string)
    (ign : IgnoreList) (key : string) (providedValue : Value) : list Issue :=
  stdout (validateChartValues D [(key, providedValue)] O prefix ign init).


(** ** Provided tree deep-equal to the defaults *)

(** No key occurs twice. *)
Fixpoint uniqueKeys (ks : list string) : bool :=
  match ks with
  | [] => true
  | k :: rest => negb (existsb (String.eqb k) rest) && uniqueKeys rest
  end.

(** A value is a well-formed Go value when each of its maps, at every
    depth, has each key once. *)
Fixpoint wfValue (v : Value) : bool :=
  match v with
  | VSlice elems =>
      (fix all (l : list Value) : bool :=
         match l with
         | [] => true
         | x :: rest => wfValue x && all rest
         end) elems
  | VMap m =>
      uniqueKeys (keys m)
      && (fix all (m : Map) : bool :=
            match m with
            | [] => true
            | (_, x) :: rest => wfValue x && all rest
            end) m
  | _ => true
  end.

Definition WfMap (m : Map) : Prop := wfValue (VMap m) = true.

(** Every key of [P] is a key of [D] and carries a value deeply equal to
    the one in [D]. *)
Definition equalAtEveryKey (D P : Map) : Prop :=
  forall key p, In (key, p) P ->
    exists d, lookup key D = Some d /\ DeepEqual d p = true.

(** The same, as a check that runs. *)
Definition equalAtEveryKeyb (D P : Map) : bool :=
  forallb (fun kp => match lookup (fst kp) D with
                     | Some d => DeepEqual d (snd kp)
                     | None => false
                     end) P.

Definition isRedundant (i : Issue) : Prop :=
  exists path value, i = RedundantValue path value.

(** ** Keys that only the defaults tree has *)

(** [agreeOn P D D']: the defaults trees [D] and [D'] hold the same value
    at every key of the provided tree [P], where for a key that holds a
    mapping in both it is enough that the two mappings agree in the same
    way on the provided sub-tree. The two trees may differ at will on keys
    that [P] does not have, at any depth. *)
Inductive agreeOn : Map -> Map -> Map -> Prop :=
| agreeOn_nil (D D' : Map) : agreeOn [] D D'
| agreeOn_same (key : string) (v : Value) (rest D D' : Map) :
    lookup key D = lookup key D' ->
    agreeOn rest D D' ->
    agreeOn ((key, v) :: rest) D D'
| agreeOn_map (key : string) (pm rest D D' dm dm' : Map) :
    lookup key D = Some (VMap dm) ->
    lookup key D' = Some (VMap dm') ->
    agreeOn pm dm dm' ->
    agreeOn rest D D' ->
    agreeOn ((key, VMap pm) :: rest) D D'
| agreeOn_scalar (key : string) (v : Value) (rest D D' dm dm' : Map) :
    lookup key D = Some (VMap dm) ->
    lookup key D' = Some (VMap dm') ->
    isMap v = false ->
    agreeOn rest D D' ->
    agreeOn ((key, v) :: rest) D D'.

(** ** Traversal order *)

(** [reordered P P']: [P'] is the tree [P] with the entries of its maps
    listed in another order, at the root or under any key. The two lists
    stand for the same Go map visited in two iteration orders. *)
Inductive reordered : Map -> Map -> Prop :=
| reordered_nil : reordered [] []
| reordered_skip (key : string) (v : Value) (rest rest' : Map) :
    reordered rest rest' ->
    reordered ((key, v) :: rest) ((key, v) :: rest')
| reordered_under (key : string) (pm pm' rest rest' : Map) :
    reordered pm pm' ->
    reordered rest rest' ->
    reordered ((key, VMap pm) :: rest) ((key, VMap pm') :: rest')
| reordered_swap (a b : string * Value) (rest : Map) :
    reordered (a :: b :: rest) (b :: a :: rest)
| reordered_trans (P1 P2 P3 : Map) :
    reordered P1 P2 -> reordered P2 P3 -> reordered P1 P3.

(** Same flag, same lines up to their order, same number of iterations. *)
Definition sameResult (a b : St) : Prop :=
  issuesFound a = issuesFound b
  /\ Permutation (stdout a) (stdout b)
  /\ iterations a = iterations b.

(** ** Further notions: paths, filters, the flag methods *)

(** The full paths of the keys of a tree, at every depth reached through
    maps, as the comparator builds them from [prefix]. *)
Fixpoint pathsOfValue (v : Value) (prefix : string) : list string :=
  match v with
  | VMap m =>
      (fix go (m : Map) : list string :=
         match m with
         | [] => []
         | (key, v1) :: rest =>
             fullKeyOf prefix key
               :: pathsOfValue v1 (fullKeyOf prefix key) ++ go rest
         end) m
  | _ => []
  end.

Definition pathsOf (prefix : string) (m : Map) : list string :=
  pathsOfValue (VMap m) prefix.

Definition isUnexpected (i : Issue) : bool :=
  match i with
  | UnexpectedKey _ => true
  | _ => false
  end.

(** A type-mismatch line names two different types, and never a map as the
    expected type of the two-type form; the "expected map" form never names
    a map as the type found. The other lines are unconstrained. *)
Definition genuineMismatch (i : Issue) : Prop :=
  match i with
  | TypeMismatch _ expected got => expected <> got /\ expected <> TMap
  | TypeMismatchMap _ got => got <> Some TMap
  | _ => True
  end.

(** [l] is [l'] with some Redundant-value lines taken out. *)
Inductive DropsRedundant : list Issue -> list Issue -> Prop :=
| DropsRedundant_nil : DropsRedundant [] []
| DropsRedundant_keep (i : Issue) (l l' : list Issue) :
    DropsRedundant l l' -> DropsRedundant (i :: l) (i :: l')
| DropsRedundant_drop (path : string) (value : Value) (l l' : list Issue) :
    DropsRedundant l l' -> DropsRedundant l (RedundantValue path value :: l').

(** No overrides: a nil map or an empty one. *)
Definition noOverrides (O : option Map) : bool :=
  match O with
  | None | Some [] => true
  | _ => false
  end.

(** The method [Set(value string) error] of [IgnoreList]: it appends
    [value] to the list behind the receiver and returns [nil]. The result
    is the new list and the error, [None] for [nil]. *)
Definition IgnoreList_Set (i : IgnoreList) (value : string)
    : IgnoreList * option string :=
  (i ++ [value], None).

(** [strings.Join(elems, sep)] *)
Fixpoint Join (elems : list string) (sep : string) : string :=
  match elems with
  | [] => ""
  | [e] => e
  | e :: rest => e ++ sep ++ Join rest sep
  end.

(** The method [String() string] of [IgnoreList]. *)
Definition IgnoreList_String (i : IgnoreList) : string := Join i ",".

(** What one execution of the loop body of the variant does. The variant
    hands no overrides map down: that component of [Recurse] is left
    empty. *)
Definition baselineOutcome (defaultValues : Map) (prefix : string)
    (ignoreList : IgnoreList) (key : string) (providedValue : Value)
    : Outcome :=
  let fullKey := fullKeyOf prefix key in
  if shouldIgnore fullKey ignoreList then Skip
  else
    match lookup key defaultValues with
    | None => Emit (UnexpectedKey fullKey)
    | Some defaultValue =>
        match defaultValue, providedValue with
        | VMap defaultMap, VMap providedMap =>
            Recurse defaultMap providedMap [] fullKey
        | VMap _, _ => Emit (TypeMismatchMap fullKey (TypeOf providedValue))
        | _, _ => leafOutcome None key fullKey defaultValue providedValue
        end
    end.

(** ** cmd/main.go: pairs of values files

    [detectPairs] walks the file system. The file system and the functions
    of [path/filepath] and [os] it is read through are parameters of the
    model: [Dir], [Base] and [PathJoin] stand for [filepath.Dir],
    [filepath.Base] and [filepath.Join] (of two elements), [isRegular path]
    for "[os.Stat(path)] succeeds and the file is not a directory", and
    the list of [WalkEvent]s for the calls that [filepath.Walk] makes to its
    callback, in order. The upward loop has no bound of its own in the
    source; it is given fuel, and [None] means that the fuel ran out. *)

(** [type valuePair struct { override string; service string }] *)
Record valuePair : Type := mkPair {
  override : string;
  service : string
}.

(** One call of the callback of [filepath.Walk]: an entry with its
    [info.IsDir()], or an entry that could not be read, with the error. *)
Inductive WalkEvent : Type :=
| Visit (path : string) (isDir : bool)
| Failure (path : string) (err : string).

(** The function handed to [sort.Slice]; [<] on Go strings is the
    byte-wise lexicographic order. *)
Definition pairLess (p q : valuePair) : bool :=
  if String.eqb (override p) (override q)
  then String.ltb (service p) (service q)
  else String.ltb (override p) (override q).

(** [sort.Slice(pairs, less)]. The order is total and strict and two pairs
    that it does not separate are the same pair, so that every sorting
    algorithm returns the same slice; insertion is the one written here. *)
Fixpoint insertPair (p : valuePair) (sorted : list valuePair)
    : list valuePair :=
  match sorted with
  | [] => [p]
  | q :: rest => if pairLess q p then q :: insertPair p rest else p :: q :: rest
  end.

Fixpoint sortPairs (pairs : list valuePair) : list valuePair :=
  match pairs with
  | [] => []
  | p :: rest => insertPair p (sortPairs rest)
  end.

(** [p] comes before [q] or is [q]: the order a sorted slice is in. *)
Definition pairLe (p q : valuePair) : Prop := pairLess q p = false.

Section DetectPairs.

Variable Dir : string -> string.
Variable Base : string -> string.
Variable PathJoin : string -> string -> string.
Variable isRegular : string -> bool.

(** The loop [for { ... }] that climbs from [currentDir] towards
    [baseDir]; the result is [overridePath], empty when the loop was left
    without a file. *)
Fixpoint findOverride (fuel : nat) (baseDir currentDir : string)
    : option string :=
  match fuel with
  | 0 => None
  | S fuel' =>
      let candidate := PathJoin currentDir "overrides.yaml" in
      if isRegular candidate then Some candidate
      else if String.eqb currentDir baseDir then Some ""
      else
        let parent := Dir currentDir in
        if String.eqb parent currentDir then Some ""
        else findOverride fuel' baseDir parent
  end.

(** The callback: the slice [pairs] after the call, or the error that the
    callback returns. *)
Definition walkFn (fuel : nat) (baseDir chartName : string)
    (pairs : list valuePair) (event : WalkEvent)
    : option (list valuePair + string) :=
  match event with
  | Failure _ err => Some (inr err)
  | Visit path isDir =>
      if negb isDir && String.eqb (Base path) (chartName ++ ".yaml") then
        match findOverride fuel baseDir (Dir path) with
        | None => None
        | Some overridePath =>
            if String.eqb overridePath "" then Some (inl pairs)
            else Some (inl (pairs ++ [mkPair overridePath path]))
        end
      else Some (inl pairs)
  end.

(** [filepath.Walk] with this callback: it stops at the first error that
    the callback returns. *)
Fixpoint walk (fuel : nat) (baseDir chartName : string)
    (events : list WalkEvent) (pairs : list valuePair)
    : option (list valuePair + string) :=
  match events with
  | [] => Some (inl pairs)
  | event :: rest =>
      match walkFn fuel baseDir chartName pairs event with
      | None => None
      | Some (inr err) => Some (inr err)
      | Some (inl pairs') => walk fuel baseDir chartName rest pairs'
      end
  end.

(** [detectPairs(baseDir, chartName)]: [inl pairs] for [(pairs, nil)],
    [inr err] for [(nil, err)]. *)
Definition detectPairs (fuel : nat) (baseDir chartName : string)
    (events : list WalkEvent) : option (list valuePair + string) :=
  match walk fuel baseDir chartName events [] with
  | None => None
  | Some (inr err) => Some (inr err)
  | Some (inl pairs) => Some (inl (sortPairs pairs))
  end.

End DetectPairs.

(** The [k]-th ancestor of a directory. *)
Fixpoint ancestor (Dir : string -> string) (k : nat) (d : string) : string :=
  match k with
  | 0 => d
  | S k' => ancestor Dir k' (Dir d)
  end.

(** No entry of the walk failed, and the fuel is enough for every entry:
    it exceeds the [depth] of its directory, a measure that [Dir]
    decreases. *)
Definition walkable (Dir : string -> string) (depth : string -> nat)
    (fuel : nat) (events : list WalkEvent) : Prop :=
  Forall (fun e => match e with
                   | Visit path _ => depth (Dir path) < fuel
                   | Failure _ _ => False
                   end) events.

(** A directory function on slash-separated paths, to run the model on:
    what precedes the last slash, the root for a path whose only slash is
    the first byte, and "." for a path without a slash. *)
Fixpoint beforeLastSlash (s : string) : option string :=
  match s with
  | EmptyString => None
  | String c s' =>
      match beforeLastSlash s' with
      | Some r => Some (String c r)
      | None => if Ascii.eqb c "/" then Some EmptyString else None
      end
  end.

Definition slashDir (p : string) : string :=
  match beforeLastSlash p with
  | Some EmptyString => "/"
  | Some r => r
  | None => "."
  end.

Fixpoint afterLastSlash (s : string) : string :=
  match s with
  | EmptyString => EmptyString
  | String c s' =>
      match beforeLastSlash s' with
      | Some _ => afterLastSlash s'
      | None => if Ascii.eqb c "/" then s' else s
      end
  end.

Definition slashJoin (dir name : string) : string :=
  if String.eqb dir "/" then "/" ++ name else dir ++ "/" ++ name.

(** A measure that [slashDir] decreases until it reaches "/" or ".". *)
Definition slashDepth (p : string) : nat :=
  if String.eqb p "/" || String.eqb p "." then 0 else S (String.length p).

(** The layout of the test of [detectPairs] in the repository, under the
    base directory [/env], with one more [overrides.yaml] above the base
    directory. *)
Definition testFiles : list string :=
  ["/overrides.yaml";
   "/env/nopair/services/web_service.yaml";
   "/env/pair1/overrides.yaml";
   "/env/pair1/services/not_web_service.yaml";
   "/env/pair1/services/web_service.yaml";
   "/env/pair2/sub/overrides.yaml";
   "/env/pair2/sub/services/web_service.yaml"].

Definition testIsRegular (path : string) : bool :=
  existsb (String.eqb path) testFiles.

Definition testWalk : list WalkEvent :=
  [Visit "/env" true;
   Visit "/env/nopair" true;
   Visit "/env/nopair/services" true;
   Visit "/env/nopair/services/web_service.yaml" false;
   Visit "/env/pair1" true;
   Visit "/env/pair1/overrides.yaml" false;
   Visit "/env/pair1/services" true;
   Visit "/env/pair1/services/not_web_service.yaml" false;
   Visit "/env/pair1/services/web_service.yaml" false;
   Visit "/env/pair2" true;
   Visit "/env/pair2/sub" true;
   Visit "/env/pair2/sub/overrides.yaml" false;
   Visit "/env/pair2/sub/services" true;
   Visit "/env/pair2/sub/services/web_service.yaml" false].

(** The keys of a tree that hold a value that is not a mapping, at every
    depth reached through maps, each with its full path and its value, in
    the order of the traversal. *)
Fixpoint leavesOfValue (v : Value) (prefix : string)
    : list (string * Value) :=
  match v with
  | VMap m =>
      (fix go (m : Map) : list (string * Value) :=
         match m with
         | [] => []
         | (key, v1) :: rest =>
             match v1 with
             | VMap _ => leavesOfValue v1 (fullKeyOf prefix key)
             | _ => [(fullKeyOf prefix key, v1)]
             end ++ go rest
         end) m
  | _ => []
  end.

Definition leavesOf (prefix : string) (m : Map) : list (string * Value) :=
  leavesOfValue (VMap m) prefix.

(** * Proofs *)

(** ** Basic facts *)

Section Strings.

Lemma HasPrefix_app (p t : string) : HasPrefix (p ++ t) p = true.
Proof.
  induction p as [|c p IH]; simpl; [reflexivity|].
  now rewrite Ascii.eqb_refl, IH.
Qed.

Lemma HasPrefix_inv (s p : string) :
  HasPrefix s p = true -> exists t, s = (p ++ t)%string.
Proof.
  revert s; induction p as [|c p IH]; intros s H; simpl in *.
  - now exists s.
  - destruct s as [|d s]; [discriminate|].
    apply andb_true_iff in H as [Hc Hs].
    apply Ascii.eqb_eq in Hc; subst d.
    destruct (IH _ Hs) as [t ->]. now exists t.
Qed.

Lemma HasPrefix_spec (s p : string) :
  HasPrefix s p = true <-> exists t, s = (p ++ t)%string.
Proof.
  split; [apply HasPrefix_inv|].
  intros [t ->]. apply HasPrefix_app.
Qed.

Lemma shouldIgnore_spec (path : string) (ignoreList : IgnoreList) :
  shouldIgnore path ignoreList = true <->
  exists ignore, In ignore ignoreList /\ HasPrefix path ignore = true.
Proof.
  induction ignoreList as [|e l IH]; simpl.
  - split; [discriminate|]. now intros (? & [] & _).
  - destruct (HasPrefix path e) eqn:He.
    + split; [|reflexivity]. intros _. exists e. now split; [left|].
    + rewrite IH. split.
      * intros (i & Hi & Hp). exists i. now split; [right|].
      * intros (i & [<-|Hi] & Hp); [congruence|]. now exists i.
Qed.

End Strings.

Section Monoid.

Lemma St_app_init_r (st : St) : St_app st init = st.
Proof.
  destruct st as [b l n]; unfold St_app; simpl.
  now rewrite orb_false_r, app_nil_r, Nat.add_0_r.
Qed.

Lemma St_app_init_l (st : St) : St_app init st = st.
Proof. now destruct st. Qed.

Lemma St_app_assoc (a b c : St) :
  St_app a (St_app b c) = St_app (St_app a b) c.
Proof.
  unfold St_app; simpl.
  now rewrite orb_assoc, app_assoc, Nat.add_assoc.
Qed.

Lemma tick_St_app (st : St) : tick st = St_app st (tick init).
Proof.
  destruct st as [b l n]; unfold tick, St_app; simpl.
  now rewrite orb_false_r, app_nil_r, Nat.add_1_r.
Qed.

Lemma report_St_app (i : Issue) (st : St) :
  report i st = St_app st (report i init).
Proof.
  destruct st as [b l n]; unfold report, St_app; simpl.
  now rewrite orb_true_r, Nat.add_0_r.
Qed.

End Monoid.

Section Equations.

Variables (D : Map) (O : option Map) (prefix : string) (ign : IgnoreList).

Lemma validate_nil (st : St) : validateChartValues D [] O prefix ign st = st.
Proof. reflexivity. Qed.

(** The loop runs its body on the first entry, then goes on. *)
Lemma validate_cons (key : string) (v : Value) (rest : Map) (st : St) :
  validateChartValues D ((key, v) :: rest) O prefix ign st =
  validateChartValues D rest O prefix ign
    (validateChartValues D [(key, v)] O prefix ign st).
Proof. reflexivity. Qed.

Lemma validate_app (P1 P2 : Map) (st : St) :
  validateChartValues D (P1 ++ P2) O prefix ign st =
  validateChartValues D P2 O prefix ign
    (validateChartValues D P1 O prefix ign st).
Proof.
  revert st; induction P1 as [|[k v] P1 IH]; intros st; [reflexivity|].
  simpl app. rewrite validate_cons, IH. now rewrite (validate_cons k v P1).
Qed.

Lemma compareLeaf_outcome (key fullKey : string) (d p : Value) (st : St) :
  compareLeaf O key fullKey d p st =
  match leafOutcome O key fullKey d p with
  | Emit i => report i st
  | _ => st
  end.
Proof.
  unfold compareLeaf, leafOutcome.
  destruct (DeepEqual d p).
  - now destruct (overrideResets O key p).
  - destruct (TypeOf d), (TypeOf p); try reflexivity.
    now destruct (GoType_eqb _ _).
Qed.

Lemma leafOutcome_not_Recurse (key fullKey : string) (d p : Value)
    (dm pm om : Map) (fk : string) :
  leafOutcome O key fullKey d p <> Recurse dm pm om fk.
Proof.
  unfold leafOutcome.
  destruct (DeepEqual d p).
  - now destruct (overrideResets O key p).
  - destruct (TypeOf d), (TypeOf p); try discriminate.
    now destruct (GoType_eqb _ _).
Qed.

(** One execution of the loop body, by cases. *)
Lemma validate_step (key : string) (v : Value) (st : St) :
  validateChartValues D [(key, v)] O prefix ign st =
  match outcome D O prefix ign key v with
  | Skip => tick st
  | Emit i => report i (tick st)
  | Recurse dm pm om fk => validateChartValues dm pm (Some om) fk ign (tick st)
  end.
Proof.
  unfold validateChartValues, outcome; simpl.
  destruct (shouldIgnore _ ign); [reflexivity|].
  destruct (lookup key D) as [d|]; [|reflexivity].
  destruct d; try (rewrite compareLeaf_outcome;
    match goal with
    | |- context [leafOutcome ?a ?b ?c ?d ?e] =>
        pose proof (leafOutcome_not_Recurse b c d e) as Hn;
        destruct (leafOutcome a b c d e); try reflexivity;
        exfalso; eapply Hn; reflexivity
    end).
  now destruct v.
Qed.

Lemma outcome_Recurse_inv (key : string) (v : Value) (dm pm om : Map)
    (fk : string) :
  outcome D O prefix ign key v = Recurse dm pm om fk ->
  v = VMap pm /\ lookup key D = Some (VMap dm)
  /\ om = overridesMapOf O key /\ fk = fullKeyOf prefix key
  /\ shouldIgnore fk ign = false.
Proof.
  unfold outcome.
  destruct (shouldIgnore _ ign) eqn:Hi; [discriminate|].
  destruct (lookup key D) as [d|]; [|discriminate].
  destruct d; try (intros H; exfalso; eapply leafOutcome_not_Recurse; exact H).
  destruct v; try discriminate.
  intros [= <- <- <- <-]. now repeat split.
Qed.

Lemma outcome_Emit_inv (key : string) (v : Value) (i : Issue) :
  outcome D O prefix ign key v = Emit i ->
  issuePath i = fullKeyOf prefix key
  /\ shouldIgnore (fullKeyOf prefix key) ign = false.
Proof.
  unfold outcome.
  destruct (shouldIgnore _ ign) eqn:Hi; [discriminate|].
  destruct (lookup key D) as [d|]; [|discriminate].
  assert (Hleaf : forall d', leafOutcome O key (fullKeyOf prefix key) d' v = Emit i ->
            issuePath i = fullKeyOf prefix key /\ false = false).
  { intros d'. unfold leafOutcome.
    destruct (DeepEqual d' v).
    - destruct (overrideResets O key v); [discriminate|]. now intros [= <-].
    - destruct (TypeOf d'), (TypeOf v); try discriminate.
      destruct (GoType_eqb _ _); [discriminate|]. now intros [= <-]. }
  destruct d; try apply Hleaf.
  destruct v; try (now intros [= <-]); discriminate.
Qed.

End Equations.

Lemma treeSize_cons (k : string) (v : Value) (rest : Map) :
  treeSize ((k, v) :: rest) = S (keyCount v + treeSize rest).
Proof. reflexivity. Qed.

Lemma keyCount_VMap (m : Map) : keyCount (VMap m) = treeSize m.
Proof. reflexivity. Qed.

(** ** Induction along the runs of the comparator

    A property of all runs holds as soon as it holds for the empty loop and
    is carried over one execution of the loop body, given that it holds for
    the recursive call the body makes (if any) and for the rest of the
    loop. *)
Section RunInduction.

Variable ign : IgnoreList.
Variable Q : Map -> Map -> option Map -> string -> Prop.

Hypothesis Q_nil : forall D O prefix, Q D [] O prefix.
Hypothesis Q_cons : forall D O prefix key v rest,
  (forall dm pm om fk,
      outcome D O prefix ign key v = Recurse dm pm om fk ->
      Q dm pm (Some om) fk) ->
  Q D rest O prefix ->
  Q D ((key, v) :: rest) O prefix.

Lemma run_ind_bounded (n : nat) :
  forall D P O prefix, treeSize P < n -> Q D P O prefix.
Proof.
  induction n as [|n IH]; intros D P O prefix Hn; [lia|].
  destruct P as [|[key v] rest]; [apply Q_nil|].
  rewrite treeSize_cons in Hn.
  apply Q_cons.
  - intros dm pm om fk Ho.
    apply outcome_Recurse_inv in Ho as (-> & _).
    apply IH. rewrite keyCount_VMap in Hn. lia.
  - apply IH. lia.
Qed.

Lemma run_ind : forall D P O prefix, Q D P O prefix.
Proof. intros D P O prefix. apply (run_ind_bounded (S (treeSize P))). lia. Qed.

End RunInduction.

Section Frame.

Variable ign : IgnoreList.

(** A run started in [st] does to [st] what it does to [init]: the
    comparator only sets the flag, appends lines and counts. *)
Lemma validate_frame (D P : Map) (O : option Map) (prefix : string) :
  forall st,
    validateChartValues D P O prefix ign st =
    St_app st (validateChartValues D P O prefix ign init).
Proof.
  revert D P O prefix.
  apply (run_ind ign (fun D P O prefix => forall st,
           validateChartValues D P O prefix ign st =
           St_app st (validateChartValues D P O prefix ign init))).
  - intros D O prefix st. now rewrite !validate_nil, St_app_init_r.
  - intros D O prefix key v rest IHrec IHrest st.
    rewrite validate_cons, IHrest.
    rewrite (validate_cons D O prefix ign key v rest init).
    rewrite (IHrest (validateChartValues D [(key, v)] O prefix ign init)).
    rewrite St_app_assoc. f_equal.
    rewrite !validate_step.
    destruct (outcome D O prefix ign key v) as [|i|dm pm om fk] eqn:Ho.
    + apply tick_St_app.
    + rewrite report_St_app, (report_St_app i (tick init)), St_app_assoc.
      now rewrite <- tick_St_app.
    + rewrite (IHrec _ _ _ _ eq_refl (tick st)).
      rewrite (IHrec _ _ _ _ eq_refl (tick init)).
      now rewrite St_app_assoc, <- tick_St_app.
Qed.

Lemma flagMatches_init : flagMatches init.
Proof. unfold flagMatches; simpl. split; [discriminate|congruence]. Qed.

Lemma flagMatches_tick (st : St) : flagMatches st -> flagMatches (tick st).
Proof. now unfold flagMatches. Qed.

Lemma flagMatches_report (i : Issue) (st : St) : flagMatches (report i st).
Proof.
  unfold flagMatches; simpl. split; [|reflexivity].
  intros _ H. now apply app_eq_nil in H as [_ H].
Qed.

Lemma validate_flagMatches (D P : Map) (O : option Map) (prefix : string) :
  forall st, flagMatches st ->
    flagMatches (validateChartValues D P O prefix ign st).
Proof.
  revert D P O prefix.
  apply (run_ind ign (fun D P O prefix => forall st, flagMatches st ->
           flagMatches (validateChartValues D P O prefix ign st))).
  - intros D O prefix st H. now rewrite validate_nil.
  - intros D O prefix key v rest IHrec IHrest st H.
    rewrite validate_cons. apply IHrest.
    rewrite validate_step.
    destruct (outcome D O prefix ign key v) as [|i|dm pm om fk] eqn:Ho.
    + now apply flagMatches_tick.
    + apply flagMatches_report.
    + apply (IHrec _ _ _ _ eq_refl). now apply flagMatches_tick.
Qed.

(** No printed line carries an ignored path. *)
Lemma validate_paths_not_ignored (D P : Map) (O : option Map)
    (prefix : string) :
  Forall (fun i => shouldIgnore (issuePath i) ign = false)
    (stdout (validateChartValues D P O prefix ign init)).
Proof.
  revert D P O prefix.
  apply (run_ind ign (fun D P O prefix =>
           Forall (fun i => shouldIgnore (issuePath i) ign = false)
             (stdout (validateChartValues D P O prefix ign init)))).
  - intros D O prefix. constructor.
  - intros D O prefix key v rest IHrec IHrest.
    rewrite validate_cons, validate_frame. simpl.
    apply Forall_app; split; [|exact IHrest].
    rewrite validate_step.
    destruct (outcome D O prefix ign key v) as [|i|dm pm om fk] eqn:Ho.
    + constructor.
    + apply outcome_Emit_inv in Ho as [Hp Hi]. simpl.
      constructor; [|constructor]. now rewrite Hp.
    + rewrite validate_frame. simpl. now apply IHrec.
Qed.

(** The loop body runs at most once per key of the provided tree. *)
Lemma validate_iterations (D P : Map) (O : option Map) (prefix : string) :
  iterations (validateChartValues D P O prefix ign init) <= treeSize P.
Proof.
  revert D P O prefix.
  apply (run_ind ign (fun D P O prefix =>
           iterations (validateChartValues D P O prefix ign init)
           <= treeSize P)).
  - intros D O prefix. simpl. lia.
  - intros D O prefix key v rest IHrec IHrest.
    rewrite validate_cons, validate_frame, treeSize_cons. simpl.
    rewrite validate_step.
    destruct (outcome D O prefix ign key v) as [|i|dm pm om fk] eqn:Ho;
      simpl; try lia.
    rewrite validate_frame. simpl.
    pose proof (IHrec _ _ _ _ eq_refl) as Hrec.
    apply outcome_Recurse_inv in Ho as (-> & _).
    rewrite keyCount_VMap. lia.
Qed.

End Frame.

Section Steps.

Variables (D : Map) (O : option Map) (prefix : string) (ign : IgnoreList).


(** The output of a run is the concatenation of what its keys contribute,
    in the order of the traversal. *)
Lemma stdout_validate_cons (key : string) (v : Value) (rest : Map) (st : St) :
  stdout (validateChartValues D ((key, v) :: rest) O prefix ign st) =
  stdout st ++ emittedFor D O prefix ign key v
    ++ stdout (validateChartValues D rest O prefix ign init).
Proof.
  rewrite validate_cons, validate_frame. simpl.
  rewrite (validate_frame ign D [(key, v)]). simpl.
  now rewrite <- app_assoc.
Qed.

Lemma stdout_validate_app (P1 P2 : Map) (st : St) :
  stdout (validateChartValues D (P1 ++ P2) O prefix ign st) =
  stdout (validateChartValues D P1 O prefix ign st)
    ++ stdout (validateChartValues D P2 O prefix ign init).
Proof. now rewrite validate_app, validate_frame. Qed.


End Steps.

(** ** The tests of the repository, run on the model *)

Section RepositoryTests.

Let resourcesDefaults : Map :=
  [("resources", VMap [("limits", VMap [("cpu", VString "100m")])])].
Let resourcesProvided : Map :=
  [("resources", VMap [("limits", VMap [("cpu", VInt 1)])])].

Example test_no_issues :
  issuesFound (validateChartValues [("key1", VString "value1")]
                 [("key1", VString "different")] None "" [] init) = false.
Proof. reflexivity. Qed.

Example test_redundant_value :
  issuesFound (validateChartValues [("key1", VString "value1")]
                 [("key1", VString "value1")] None "" [] init) = true.
Proof. reflexivity. Qed.

Example test_type_mismatch :
  stdout (validateChartValues [("key1", VString "value1")]
            [("key1", VInt 123)] None "" [] init)
  = [TypeMismatch "key1" TString TInt].
Proof. reflexivity. Qed.

Example test_ignored_field :
  issuesFound (validateChartValues resourcesDefaults resourcesProvided None ""
                 ["resources"] init) = false.
Proof. reflexivity. Qed.

Example test_not_ignored_field :
  stdout (validateChartValues resourcesDefaults resourcesProvided None ""
            [] init)
  = [TypeMismatch "resources.limits.cpu" TString TInt].
Proof. reflexivity. Qed.

Example test_override_restored_to_default :
  issuesFound
    (validateChartValues [("tempo", VMap [("enabled", VBool true)])]
       [("tempo", VMap [("enabled", VBool true)])]
       (Some [("tempo", VMap [("enabled", VBool false)])]) "" [] init)
  = false.
Proof. reflexivity. Qed.

Example test_redundant_nested_value :
  stdout
    (validateChartValues [("nested", VMap [("key", VString "value")])]
       [("nested", VMap [("key", VString "value")])]
       (Some [("nested", VMap [("other", VString "something")])]) "" [] init)
  = [RedundantValue "nested.key" (VString "value")].
Proof. reflexivity. Qed.

Example test_baseline_unexpected_key :
  stdout (Baseline.validateChartValues [("replicaCount", VInt 1)]
            [("maxReplicaCount", VInt 3)] "" [] init)
  = [UnexpectedKey "maxReplicaCount"].
Proof. reflexivity. Qed.

Example test_float64_nan_differs_from_itself :
  DeepEqual (VFloat64 0x7ff8000000000000) (VFloat64 0x7ff8000000000000)
  = false.
Proof. reflexivity. Qed.

Example test_float64_zeros_equal :
  DeepEqual (VFloat64 0x8000000000000000) (VFloat64 0) = true.
Proof. reflexivity. Qed.

End RepositoryTests.

(** ** The claims *)







(** C4. [shouldIgnore path ignoreList] holds exactly when some entry of the
    list is a prefix of [path] as a plain string, with no regard for the
    dots that separate path segments: the entry "res" matches the path
    "resources.cpu". A key whose full path matches is skipped whole: the
    loop body does nothing for it whatever lies under the key, and no line
    that a run prints carries a path that starts with an entry of the
    ignore list. *)
Theorem C4_ignore_is_prefix_match
    (D : Map) (O : option Map) (prefix : string) (ign : IgnoreList)
    (path key : string) (v : Value) (P P1 P2 : Map) (st : St) :
  (shouldIgnore path ign = true <->
   exists ignore rest, In ignore ign /\ path = (ignore ++ rest)%string)
  /\ shouldIgnore "resources.cpu" ["res"] = true
  /\ (shouldIgnore (fullKeyOf prefix key) ign = true ->
      validateChartValues D (P1 ++ (key, v) :: P2) O prefix ign st =
      validateChartValues D P2 O prefix ign
        (tick (validateChartValues D P1 O prefix ign st)))
  /\ Forall (fun i => forall ignore rest,
               In ignore ign -> issuePath i <> (ignore ++ rest)%string)
       (stdout (validateChartValues D P O prefix ign init)).
Proof.
  assert (Hspec : forall s, shouldIgnore s ign = true <->
            exists ignore rest, In ignore ign /\ s = (ignore ++ rest)%string).
  { intros s. rewrite shouldIgnore_spec. split.
    - intros (e & He & Hp). apply HasPrefix_spec in Hp as [t Ht].
      now exists e, t.
    - intros (e & t & He & Hp). exists e. split; [trivial|].
      apply HasPrefix_spec. now exists t. }
  split; [apply Hspec|]. split; [reflexivity|]. split.
  - intros Hi. rewrite validate_app, validate_cons, validate_step.
    unfold outcome. now rewrite Hi.
  - eapply Forall_impl; [|apply validate_paths_not_ignored].
    intros i Hi e t He Hp.
    assert (Ht : shouldIgnore (issuePath i) ign = true)
      by (apply Hspec; now exists e, t).
    congruence.
Qed.

(** C8. On every (finite) triple of trees, every prefix and every ignore
    list, the comparator returns a state: it is a total function with no
    error outcome, and the body of its loop is executed at most once for
    each key of the provided tree. *)
Theorem C8_total_and_bounded
    (D P : Map) (O : option Map) (prefix : string) (ign : IgnoreList)
    (st : St) :
  exists st',
    validateChartValues D P O prefix ign st = st'
    /\ iterations st' <= iterations st + treeSize P.
Proof.
  eexists; split; [reflexivity|].
  rewrite validate_frame. simpl.
  pose proof (validate_iterations ign D P O prefix). lia.
Qed.

(** C10. The flag only goes up: [report] is the only write and stores
    [true], so a run entered with the flag set leaves it set, and a run
    leaves the flag set exactly when it was set on entry or the run printed
    at least one line. *)
Theorem C10_flag_monotone
    (D P : Map) (O : option Map) (prefix : string) (ign : IgnoreList)
    (st : St) :
  let st' := validateChartValues D P O prefix ign st in
  (forall i s, issuesFound (report i s) = true)
  /\ (forall s, issuesFound (tick s) = issuesFound s)
  /\ (issuesFound st = true -> issuesFound st' = true)
  /\ exists emitted,
       stdout st' = stdout st ++ emitted
       /\ (issuesFound st' = true <->
           issuesFound st = true \/ emitted <> []).
Proof.
  intros st'. subst st'. rewrite validate_frame. simpl.
  pose proof (validate_flagMatches ign D P O prefix init flagMatches_init)
    as Hflag.
  unfold flagMatches in Hflag.
  split; [reflexivity|]. split; [reflexivity|]. split.
  - now intros ->.
  - eexists; split; [reflexivity|].
    rewrite orb_true_iff. now rewrite Hflag.
Qed.

(** ** The variant without an overrides tree: unexpected keys *)

Section BaselineEquations.

Variables (D : Map) (prefix : string) (ign : IgnoreList).

Lemma baseline_validate_cons (key : string) (v : Value) (rest : Map)
    (st : St) :
  Baseline.validateChartValues D ((key, v) :: rest) prefix ign st =
  Baseline.validateChartValues D rest prefix ign
    (Baseline.validateChartValues D [(key, v)] prefix ign st).
Proof. reflexivity. Qed.

Lemma baseline_validate_app (P1 P2 : Map) (st : St) :
  Baseline.validateChartValues D (P1 ++ P2) prefix ign st =
  Baseline.validateChartValues D P2 prefix ign
    (Baseline.validateChartValues D P1 prefix ign st).
Proof.
  revert st; induction P1 as [|[k v] P1 IH]; intros st; [reflexivity|].
  simpl app. rewrite baseline_validate_cons, IH.
  now rewrite (baseline_validate_cons k v P1).
Qed.

End BaselineEquations.

Section BaselineFrame.

Variable ign : IgnoreList.

Lemma baseline_compareLeaf_frame (fullKey : string) (d p : Value) (st : St) :
  Baseline.compareLeaf fullKey d p st =
  St_app st (Baseline.compareLeaf fullKey d p init).
Proof.
  unfold Baseline.compareLeaf.
  destruct (DeepEqual d p); [apply report_St_app|].
  destruct (TypeOf d), (TypeOf p); try (now rewrite St_app_init_r).
  destruct (GoType_eqb _ _); [now rewrite St_app_init_r|apply report_St_app].
Qed.

Lemma baseline_frame_bounded (n : nat) :
  forall D' P prefix' st, treeSize P < n ->
    Baseline.validateChartValues D' P prefix' ign st =
    St_app st (Baseline.validateChartValues D' P prefix' ign init).
Proof.
  induction n as [|n IH]; intros D' P prefix' st Hn; [lia|].
  destruct P as [|[key v] rest].
  { now rewrite St_app_init_r. }
  rewrite treeSize_cons in Hn.
  rewrite baseline_validate_cons, (IH D' rest) by lia.
  rewrite (baseline_validate_cons D' prefix' ign key v rest init).
  rewrite (IH D' rest prefix'
             (Baseline.validateChartValues D' [(key, v)] prefix' ign init))
    by lia.
  rewrite St_app_assoc. f_equal.
  unfold Baseline.validateChartValues; simpl.
  assert (Hrep : forall i, report i (tick st) = St_app st (report i (tick init))).
  { intros i. rewrite report_St_app, (report_St_app i (tick init)).
    now rewrite St_app_assoc, <- tick_St_app. }
  assert (Hleaf : forall d,
             Baseline.compareLeaf (fullKeyOf prefix' key) d v (tick st) =
             St_app st
               (Baseline.compareLeaf (fullKeyOf prefix' key) d v (tick init))).
  { intros d. rewrite baseline_compareLeaf_frame.
    rewrite (baseline_compareLeaf_frame _ d v (tick init)).
    now rewrite St_app_assoc, <- tick_St_app. }
  destruct (shouldIgnore _ ign); [apply tick_St_app|].
  destruct (lookup key D') as [d|]; [|apply Hrep].
  destruct d as [| | | | | |dm]; try apply Hleaf.
  destruct v as [| | | | | |pm]; try apply Hrep.
  rewrite keyCount_VMap in Hn.
  change (Baseline.validateChartValues dm pm
            (fullKeyOf prefix' key) ign (tick st) =
          St_app st (Baseline.validateChartValues dm pm
            (fullKeyOf prefix' key) ign (tick init))).
  rewrite (IH dm pm _ (tick st)) by lia.
  rewrite (IH dm pm _ (tick init)) by lia.
  now rewrite St_app_assoc, <- tick_St_app.
Qed.

(** The variant, too, only sets the flag, appends lines and counts. *)
Lemma baseline_validate_frame (D P : Map) (prefix : string) (st : St) :
  Baseline.validateChartValues D P prefix ign st =
  St_app st (Baseline.validateChartValues D P prefix ign init).
Proof. apply (baseline_frame_bounded (S (treeSize P))). lia. Qed.

End BaselineFrame.

(** C2, as the code has it. In the variant of the comparator without an
    overrides tree, a key of the provided tree that the defaults tree does
    not have, and whose full path is not matched by the ignore list, makes
    the loop body print exactly one line, the Unexpected-key line of that
    key, and do nothing else: the value under the key is not looked at and
    the loop goes on with the next key. The output of the run is what the
    keys before it print, this one line, and what the keys after it
    print. *)
Theorem C2_unexpected_key_reported_once
    (D : Map) (prefix : string) (ign : IgnoreList)
    (key : string) (v : Value) (P1 P2 : Map) (st : St) :
  lookup key D = None ->
  shouldIgnore (fullKeyOf prefix key) ign = false ->
  let unexpected := UnexpectedKey (fullKeyOf prefix key) in
  let before := Baseline.validateChartValues D P1 prefix ign st in
  Baseline.validateChartValues D (P1 ++ (key, v) :: P2) prefix ign st =
  Baseline.validateChartValues D P2 prefix ign (report unexpected (tick before))
  /\ stdout (Baseline.validateChartValues D (P1 ++ (key, v) :: P2) prefix ign st)
     = stdout before ++ [unexpected]
         ++ stdout (Baseline.validateChartValues D P2 prefix ign init).
Proof.
  intros Hl Hi unexpected before.
  assert (Hstep : Baseline.validateChartValues D (P1 ++ (key, v) :: P2)
                    prefix ign st =
                  Baseline.validateChartValues D P2 prefix ign
                    (report unexpected (tick before))).
  { rewrite baseline_validate_app, baseline_validate_cons.
    unfold Baseline.validateChartValues at 2; simpl.
    now rewrite Hi, Hl. }
  split; [exact Hstep|].
  rewrite Hstep, baseline_validate_frame. simpl.
  now rewrite <- app_assoc.
Qed.

Lemma C2_witness :
  let D := [("replicas", VInt 1)] in
  let P1 := [("replicas", VInt 2)] in
  let v := VMap [("nested", VInt 3)] in
  let unexpected := UnexpectedKey (fullKeyOf "" "maxReplicaCount") in
  let before := Baseline.validateChartValues D P1 "" ["resources"] init in
  lookup "maxReplicaCount" D = None
  /\ shouldIgnore (fullKeyOf "" "maxReplicaCount") ["resources"] = false
  /\ Baseline.validateChartValues D (P1 ++ ("maxReplicaCount", v) :: [])
       "" ["resources"] init =
     Baseline.validateChartValues D [] "" ["resources"]
       (report unexpected (tick before))
  /\ stdout (Baseline.validateChartValues D
               (P1 ++ ("maxReplicaCount", v) :: []) "" ["resources"] init)
     = stdout before ++ [unexpected]
         ++ stdout (Baseline.validateChartValues D [] "" ["resources"] init).
Proof.
  intros D P1 v unexpected before.
  split; [reflexivity|]. split; [reflexivity|].
  exact (C2_unexpected_key_reported_once D "" ["resources"]
           "maxReplicaCount" v P1 [] init eq_refl eq_refl).
Defined.

(** C2 as stated fails. With no overrides tree, the comparator of
    [cmd/main.go] prints nothing for a key absent from the defaults, and
    the variant that has the report prints nothing when the path of the key
    is ignored. *)
Lemma C2_counterexample :
  lookup "extra" [] = None
  /\ validateChartValues [] [("extra", VInt 1)] None "" [] init
     = mkSt false [] 1
  /\ Baseline.validateChartValues [] [("extra", VInt 1)] "" ["ex"] init
     = mkSt false [] 1.
Proof. repeat split. Qed.

Section Lookup.

Lemma lookup_In (key : string) (m : Map) (v : Value) :
  lookup key m = Some v -> In (key, v) m.
Proof.
  induction m as [|[k x] m IH]; simpl; [discriminate|].
  destruct (String.eqb key k) eqn:E.
  - apply String.eqb_eq in E. intros [= ->]. left. now subst.
  - intros H. right. now apply IH.
Qed.

Lemma In_keys_lookup (key : string) (m : Map) :
  In key (keys m) -> exists v, lookup key m = Some v.
Proof.
  induction m as [|[k x] m IH]; simpl; [tauto|].
  intros H. destruct (String.eqb key k) eqn:E; [now exists x|].
  destruct H as [H|H]; [|now apply IH].
  subst k. now rewrite String.eqb_refl in E.
Qed.

Lemma In_keys (key : string) (v : Value) (m : Map) :
  In (key, v) m -> In key (keys m).
Proof. intros H. now apply (in_map fst) in H. Qed.

Lemma NoDup_lookup (key : string) (v : Value) (m : Map) :
  NoDup (keys m) -> In (key, v) m -> lookup key m = Some v.
Proof.
  induction m as [|[k x] m IH]; simpl; [tauto|].
  intros Hnd Hin. inversion_clear Hnd as [|? ? Hk Hm].
  destruct Hin as [[= -> ->]|Hin].
  - now rewrite String.eqb_refl.
  - destruct (String.eqb key k) eqn:E; [|now apply IH].
    apply String.eqb_eq in E; subst k.
    exfalso. apply Hk. now apply In_keys with v.
Qed.

Lemma uniqueKeys_NoDup (ks : list string) :
  uniqueKeys ks = true -> NoDup ks.
Proof.
  induction ks as [|k ks IH]; simpl; [constructor|].
  intros H. apply andb_true_iff in H as [Hk Hks].
  constructor; [|now apply IH].
  intros Hin. apply negb_true_iff in Hk.
  assert (existsb (String.eqb k) ks = true); [|congruence].
  apply existsb_exists. exists k. split; [trivial|apply String.eqb_refl].
Qed.

Lemma WfMap_NoDup (m : Map) : WfMap m -> NoDup (keys m).
Proof.
  unfold WfMap; simpl. intros H. apply andb_true_iff in H as [H _].
  now apply uniqueKeys_NoDup.
Qed.

Lemma WfMap_lookup (key : string) (m sub : Map) :
  WfMap m -> lookup key m = Some (VMap sub) -> WfMap sub.
Proof.
  unfold WfMap. intros H Hl. apply lookup_In in Hl.
  simpl in H. apply andb_true_iff in H as [_ H].
  induction m as [|[k x] m IH]; [inversion Hl|].
  apply andb_true_iff in H as [Hx Hm].
  destruct Hl as [[= -> ->]|Hl]; [exact Hx|now apply IH].
Qed.

End Lookup.

Section DeepEqualFacts.

Lemma DeepEqual_isMap (d p : Value) :
  DeepEqual d p = true -> isMap d = isMap p.
Proof. now destruct d, p. Qed.

Lemma DeepEqual_VMap (xm ym : Map) :
  DeepEqual (VMap xm) (VMap ym) =
  (length xm =? length ym)%nat
  && forallb (fun kx => match lookup (fst kx) ym with
                        | Some y1 => DeepEqual (snd kx) y1
                        | None => false
                        end) xm.
Proof.
  simpl. f_equal.
  induction xm as [|[k x] xm IH]; simpl; [reflexivity|].
  destruct (lookup k ym); [|reflexivity]. now rewrite IH.
Qed.

Lemma equalAtEveryKeyb_spec (D P : Map) :
  equalAtEveryKeyb D P = true <-> equalAtEveryKey D P.
Proof.
  unfold equalAtEveryKeyb, equalAtEveryKey. rewrite forallb_forall. split.
  - intros H key p Hin. specialize (H _ Hin); simpl in H.
    destruct (lookup key D) as [d|]; [|discriminate]. now exists d.
  - intros H [key p] Hin. destruct (H key p Hin) as (d & Hl & Hd).
    simpl. now rewrite Hl.
Qed.

(** Deep equality of two maps, read from the side of the second one. *)
Lemma DeepEqual_VMap_every_key (dm pm : Map) :
  NoDup (keys dm) ->
  DeepEqual (VMap dm) (VMap pm) = true ->
  equalAtEveryKey dm pm.
Proof.
  intros Hnd He. rewrite DeepEqual_VMap in He.
  apply andb_true_iff in He as [Hlen Hall].
  apply Nat.eqb_eq in Hlen. rewrite forallb_forall in Hall.
  assert (Hincl : incl (keys dm) (keys pm)).
  { intros k Hk. apply in_map_iff in Hk as ([k' d] & <- & Hin).
    specialize (Hall _ Hin); simpl in Hall.
    destruct (lookup k' pm) as [y|] eqn:Hl; [|discriminate].
    apply lookup_In in Hl. now apply In_keys with y. }
  assert (Hlen' : length (keys pm) <= length (keys dm))
    by (unfold keys; rewrite !length_map; lia).
  pose proof (NoDup_length_incl Hnd Hlen' Hincl) as Hback.
  pose proof (NoDup_incl_NoDup Hnd Hlen' Hincl) as Hndp.
  intros key p Hin.
  destruct (In_keys_lookup key dm) as [d Hd].
  { apply Hback. now apply In_keys with p. }
  exists d. split; [exact Hd|].
  specialize (Hall _ (lookup_In _ _ _ Hd)); simpl in Hall.
  now rewrite (NoDup_lookup key p pm Hndp Hin) in Hall.
Qed.

End DeepEqualFacts.

Section AllEqual.

Variable ign : IgnoreList.

Lemma validate_equal_only_redundant (D P : Map) (O : option Map)
    (prefix : string) :
  WfMap D -> equalAtEveryKey D P ->
  Forall isRedundant (stdout (validateChartValues D P O prefix ign init)).
Proof.
  revert D P O prefix.
  apply (run_ind ign (fun D P O prefix =>
           WfMap D -> equalAtEveryKey D P ->
           Forall isRedundant
             (stdout (validateChartValues D P O prefix ign init)))).
  - intros D O prefix _ _. constructor.
  - intros D O prefix key v rest IHrec IHrest Hwf Heq.
    rewrite stdout_validate_cons. simpl.
    apply Forall_app; split.
    2:{ apply IHrest; [exact Hwf|].
        intros k p Hin. apply Heq. now right. }
    destruct (Heq key v (or_introl eq_refl)) as (d & Hl & Hd).
    unfold emittedFor. rewrite validate_step.
    destruct (outcome D O prefix ign key v) as [|i|dm pm om fk] eqn:Ho.
    + constructor.
    + simpl. constructor; [|constructor].
      unfold outcome in Ho.
      destruct (shouldIgnore _ ign); [discriminate|].
      rewrite Hl in Ho.
      assert (Hleaf : leafOutcome O key (fullKeyOf prefix key) d v = Emit i
                      -> isRedundant i).
      { unfold leafOutcome. rewrite Hd.
        destruct (overrideResets O key v); [discriminate|].
        intros [= <-]. now eexists _, _. }
      pose proof (DeepEqual_isMap d v Hd) as Hm.
      destruct d; try (now apply Hleaf).
      destruct v; try discriminate.
    + rewrite validate_frame. simpl.
      pose proof Ho as Hinv.
      apply outcome_Recurse_inv in Hinv as (-> & Hl' & _).
      rewrite Hl in Hl'. injection Hl' as ->.
      apply (IHrec _ _ _ _ eq_refl).
      * now apply (WfMap_lookup key D dm).
      * apply DeepEqual_VMap_every_key; [|exact Hd].
        apply WfMap_NoDup. now apply (WfMap_lookup key D dm).
Qed.

End AllEqual.

(** C3 as stated fails: a provided tree deeply equal to the defaults at its
    only key makes the comparator print a Redundant-value line and set the
    flag, as the test "redundant value" of the repository expects. *)
Lemma C3_counterexample :
  let D := [("key1", VString "value1")] in
  equalAtEveryKeyb D D = true
  /\ validateChartValues D D None "" [] init
     = mkSt true [RedundantValue "key1" (VString "value1")] 1.
Proof. split; reflexivity. Qed.

Section DefaultsOnly.

Lemma lookup_app_other (key k : string) (d : Value) (D1 D2 : Map) :
  k <> key ->
  lookup k (D1 ++ (key, d) :: D2) = lookup k (D1 ++ D2).
Proof.
  intros Hne. induction D1 as [|[k1 v1] D1 IH]; simpl.
  - destruct (String.eqb k key) eqn:E; [|reflexivity].
    now apply String.eqb_eq in E.
  - now rewrite IH.
Qed.

(** A key that the provided tree does not have may be added to, or taken
    from, the defaults tree. *)
Lemma agreeOn_defaults_only_key (P D1 D2 : Map) (key : string) (d : Value) :
  ~ In key (keys P) ->
  agreeOn P (D1 ++ (key, d) :: D2) (D1 ++ D2).
Proof.
  induction P as [|[k v] P IH]; intros Hk; [constructor|].
  apply agreeOn_same.
  - apply lookup_app_other. intros ->. apply Hk. now left.
  - apply IH. intros Hin. apply Hk. now right.
Qed.

End DefaultsOnly.

(** C7. The run is driven by the keys of the provided tree alone: two
    defaults trees that agree on the keys of the provided tree, and differ
    in any way on keys that the provided tree does not have, at any depth,
    give the same run, line for line. A key that only the defaults tree has
    is therefore never looked at and never reported. *)
Theorem C7_defaults_only_keys_never_inspected
    (D D' P : Map) (O : option Map) (prefix : string) (ign : IgnoreList)
    (st : St) :
  agreeOn P D D' ->
  validateChartValues D P O prefix ign st =
  validateChartValues D' P O prefix ign st.
Proof.
  intros H. revert O prefix st.
  induction H as [D D'
                 | key v rest D D' Hl _ IHrest
                 | key pm rest D D' dm dm' Hl Hl' _ IHpm _ IHrest
                 | key v rest D D' dm dm' Hl Hl' Hv _ IHrest];
    intros O prefix st.
  - reflexivity.
  - rewrite !(validate_cons _ O prefix ign key v rest), IHrest. f_equal.
    rewrite !validate_step. unfold outcome. now rewrite Hl.
  - rewrite !(validate_cons _ O prefix ign key (VMap pm) rest), IHrest.
    f_equal. rewrite !validate_step. unfold outcome. rewrite Hl, Hl'.
    destruct (shouldIgnore _ ign); [reflexivity|]. apply IHpm.
  - rewrite !(validate_cons _ O prefix ign key v rest), IHrest. f_equal.
    rewrite !validate_step. unfold outcome. rewrite Hl, Hl'.
    destruct (shouldIgnore _ ign); [reflexivity|]. now destruct v.
Qed.

Lemma C7_witness_agree :
  agreeOn [("image", VMap [("tag", VString "v2")])]
    [("replicas", VInt 1);
     ("image", VMap [("tag", VString "v1"); ("pullPolicy", VString "Always")])]
    [("image", VMap [("tag", VString "v1")])].
Proof.
  eapply agreeOn_map; try reflexivity; [|constructor].
  apply agreeOn_same; [reflexivity|constructor].
Defined.

Lemma C7_witness :
  let P := [("image", VMap [("tag", VString "v2")])] in
  let D := [("replicas", VInt 1);
            ("image", VMap [("tag", VString "v1");
                            ("pullPolicy", VString "Always")])] in
  let D' := [("image", VMap [("tag", VString "v1")])] in
  agreeOn P D D'
  /\ validateChartValues D P None "" [] init =
     validateChartValues D' P None "" [] init.
Proof.
  intros P D D'. split; [exact C7_witness_agree|].
  exact (C7_defaults_only_keys_never_inspected D D' P None "" [] init
           C7_witness_agree).
Defined.

Section Order.

Lemma reordered_refl (P : Map) : reordered P P.
Proof. induction P as [|[k v] P IH]; now constructor. Qed.

Lemma sameResult_refl (a : St) : sameResult a a.
Proof. now repeat split. Qed.

Lemma sameResult_trans (a b c : St) :
  sameResult a b -> sameResult b c -> sameResult a c.
Proof.
  intros (H1 & H2 & H3) (H4 & H5 & H6). repeat split; try congruence.
  now apply Permutation_trans with (stdout b).
Qed.

Lemma sameResult_app (a a' b b' : St) :
  sameResult a a' -> sameResult b b' ->
  sameResult (St_app a b) (St_app a' b').
Proof.
  intros (H1 & H2 & H3) (H4 & H5 & H6). unfold St_app. repeat split; simpl.
  - congruence.
  - now apply Permutation_app.
  - congruence.
Qed.

Lemma sameResult_comm (a b : St) : sameResult (St_app a b) (St_app b a).
Proof.
  unfold St_app. repeat split; simpl.
  - apply orb_comm.
  - apply Permutation_app_comm.
  - apply Nat.add_comm.
Qed.

Variable ign : IgnoreList.

Lemma validate_cons_app (D : Map) (O : option Map) (prefix : string)
    (key : string) (v : Value) (rest : Map) :
  validateChartValues D ((key, v) :: rest) O prefix ign init =
  St_app (validateChartValues D [(key, v)] O prefix ign init)
         (validateChartValues D rest O prefix ign init).
Proof. now rewrite validate_cons, validate_frame. Qed.

Lemma validate_reordered (P P' : Map) :
  reordered P P' ->
  forall D O prefix,
    sameResult (validateChartValues D P O prefix ign init)
               (validateChartValues D P' O prefix ign init).
Proof.
  induction 1 as [| key v rest rest' _ IHrest
                  | key pm pm' rest rest' _ IHpm _ IHrest
                  | [ka va] [kb vb] rest
                  | P1 P2 P3 _ IH12 _ IH23];
    intros D O prefix.
  - apply sameResult_refl.
  - rewrite (validate_cons_app D O prefix key v rest).
    rewrite (validate_cons_app D O prefix key v rest').
    apply sameResult_app; [apply sameResult_refl|apply IHrest].
  - rewrite (validate_cons_app D O prefix key (VMap pm) rest).
    rewrite (validate_cons_app D O prefix key (VMap pm') rest').
    apply sameResult_app; [|apply IHrest].
    rewrite !validate_step. unfold outcome.
    destruct (shouldIgnore _ ign); [apply sameResult_refl|].
    destruct (lookup key D) as [d|]; [|apply sameResult_refl].
    destruct d; try apply sameResult_refl.
    rewrite (validate_frame ign _ pm), (validate_frame ign _ pm').
    apply sameResult_app; [apply sameResult_refl|apply IHpm].
  - rewrite (validate_cons_app D O prefix ka va ((kb, vb) :: rest)).
    rewrite (validate_cons_app D O prefix kb vb ((ka, va) :: rest)).
    rewrite (validate_cons_app D O prefix kb vb rest).
    rewrite (validate_cons_app D O prefix ka va rest).
    rewrite !St_app_assoc.
    apply sameResult_app; [apply sameResult_comm|apply sameResult_refl].
  - eapply sameResult_trans; [apply IH12|apply IH23].
Qed.

End Order.

(** C9. The comparator is a function of its inputs and of the order in
    which the maps of the provided tree are visited, and that order does
    not matter for what is found: two runs on the same inputs, with the
    entries of the provided maps visited in any two orders, end with the
    same flag and the same lines up to their order (and after the same
    number of iterations). *)
Theorem C9_result_independent_of_traversal_order
    (D P P' : Map) (O : option Map) (prefix : string) (ign : IgnoreList)
    (st : St) :
  reordered P P' ->
  sameResult (validateChartValues D P O prefix ign st)
             (validateChartValues D P' O prefix ign st).
Proof.
  intros H.
  rewrite (validate_frame ign D P), (validate_frame ign D P').
  apply sameResult_app; [apply sameResult_refl|].
  now apply validate_reordered.
Qed.

Lemma C9_witness_reordered :
  reordered
    [("a", VInt 1); ("m", VMap [("x", VInt 1); ("y", VString "s")])]
    [("m", VMap [("y", VString "s"); ("x", VInt 1)]); ("a", VInt 1)].
Proof.
  eapply reordered_trans; [apply reordered_swap|].
  apply reordered_under; [apply reordered_swap|apply reordered_refl].
Defined.

Lemma C9_witness :
  let D := [("a", VInt 1); ("m", VMap [("x", VString "one"); ("y", VString "s")])] in
  let P := [("a", VInt 1); ("m", VMap [("x", VInt 1); ("y", VString "s")])] in
  let P' := [("m", VMap [("y", VString "s"); ("x", VInt 1)]); ("a", VInt 1)] in
  reordered P P'
  /\ sameResult (validateChartValues D P None "" [] init)
                (validateChartValues D P' None "" [] init).
Proof.
  intros D P P'. split; [exact C9_witness_reordered|].
  exact (C9_result_independent_of_traversal_order D P P' None "" [] init
           C9_witness_reordered).
Defined.

(** * Further properties of the code *)

(** ** Paths and the ignore list *)

Section PathFacts.

Lemma HasPrefix_trans (s p q : string) :
  HasPrefix s p = true -> HasPrefix p q = true -> HasPrefix s q = true.
Proof.
  revert s p; induction q as [|c q IH]; intros s p Hsp Hpq; [reflexivity|].
  destruct p as [|d p]; [discriminate|].
  destruct s as [|e s]; [discriminate|].
  simpl in *.
  apply andb_true_iff in Hsp as [Hed Hsp].
  apply andb_true_iff in Hpq as [Hdc Hpq].
  apply Ascii.eqb_eq in Hed, Hdc; subst.
  rewrite Ascii.eqb_refl; simpl. now apply IH with p.
Qed.

Lemma HasPrefix_fullKeyOf (prefix key : string) :
  HasPrefix (fullKeyOf prefix key) prefix = true.
Proof.
  unfold fullKeyOf. destruct (String.eqb prefix "") eqn:E.
  - apply String.eqb_eq in E. now subst.
  - apply HasPrefix_app.
Qed.

Lemma shouldIgnore_app (path : string) (l1 l2 : IgnoreList) :
  shouldIgnore path (l1 ++ l2) = shouldIgnore path l1 || shouldIgnore path l2.
Proof.
  induction l1 as [|e l1 IH]; simpl; [reflexivity|].
  now destruct (HasPrefix path e).
Qed.

Lemma shouldIgnore_extends (p q : string) (ign : IgnoreList) :
  shouldIgnore p ign = true -> HasPrefix q p = true ->
  shouldIgnore q ign = true.
Proof.
  intros Hp Hq. apply shouldIgnore_spec in Hp as (e & He & Hpe).
  apply shouldIgnore_spec. exists e. split; [exact He|].
  now apply HasPrefix_trans with p.
Qed.

Variable ign : IgnoreList.

(** Every line of a run carries a path that starts with the prefix of the
    run. *)
Lemma validate_paths_prefixed (D P : Map) (O : option Map) (prefix : string) :
  Forall (fun i => HasPrefix (issuePath i) prefix = true)
    (stdout (validateChartValues D P O prefix ign init)).
Proof.
  revert D P O prefix.
  apply (run_ind ign (fun D P O prefix =>
           Forall (fun i => HasPrefix (issuePath i) prefix = true)
             (stdout (validateChartValues D P O prefix ign init)))).
  - intros D O prefix. constructor.
  - intros D O prefix key v rest IHrec IHrest.
    rewrite stdout_validate_cons. simpl.
    apply Forall_app; split; [|exact IHrest].
    unfold emittedFor. rewrite validate_step.
    destruct (outcome D O prefix ign key v) as [|i|dm pm om fk] eqn:Ho.
    + constructor.
    + apply outcome_Emit_inv in Ho as [Hp _]. simpl.
      constructor; [|constructor]. rewrite Hp. apply HasPrefix_fullKeyOf.
    + rewrite validate_frame. simpl.
      pose proof (IHrec _ _ _ _ eq_refl) as Hrec.
      apply outcome_Recurse_inv in Ho as (_ & _ & _ & -> & _).
      eapply Forall_impl; [|exact Hrec].
      intros i Hi. eapply HasPrefix_trans; [exact Hi|].
      apply HasPrefix_fullKeyOf.
Qed.

End PathFacts.

Lemma validate_ignore_app
    (D P : Map) (O : option Map) (prefix : string) (ign more : IgnoreList) :
  let keep := fun i => negb (shouldIgnore (issuePath i) more) in
  let fewer := validateChartValues D P O prefix ign init in
  let all := validateChartValues D P O prefix (ign ++ more) init in
  stdout all = filter keep (stdout fewer)
  /\ issuesFound all = existsb keep (stdout fewer).
Proof.
  intros keep fewer all.
  assert (Hout : stdout all = filter keep (stdout fewer)).
  { subst fewer all. revert D P O prefix.
    apply (run_ind ign (fun D P O prefix =>
             stdout (validateChartValues D P O prefix (ign ++ more) init) =
             filter keep (stdout (validateChartValues D P O prefix ign init)))).
    - reflexivity.
    - intros D O prefix key v rest IHrec IHrest.
      rewrite !stdout_validate_cons. simpl. rewrite filter_app, IHrest.
      f_equal. unfold emittedFor. rewrite !validate_step.
      assert (Hall : outcome D O prefix (ign ++ more) key v =
                if shouldIgnore (fullKeyOf prefix key) more then Skip
                else outcome D O prefix ign key v).
      { unfold outcome. rewrite shouldIgnore_app.
        destruct (shouldIgnore _ ign), (shouldIgnore _ more); reflexivity. }
      rewrite Hall.
      destruct (outcome D O prefix ign key v) as [|i|dm pm om fk] eqn:Ho.
      + now destruct (shouldIgnore _ more).
      + apply outcome_Emit_inv in Ho as [Hp _]. simpl.
        unfold keep at 1. rewrite Hp.
        now destruct (shouldIgnore _ more).
      + rewrite (validate_frame ign dm pm). simpl.
        pose proof (IHrec _ _ _ _ eq_refl) as Hrec.
        apply outcome_Recurse_inv in Ho as (_ & _ & _ & -> & _).
        destruct (shouldIgnore (fullKeyOf prefix key) more) eqn:Hm.
        * simpl. symmetry.
          pose proof (validate_paths_prefixed ign dm pm (Some om)
                        (fullKeyOf prefix key)) as Hpre.
          clear Hrec IHrec.
          induction Hpre as [|i l Hi _ IHl]; [reflexivity|].
          simpl. unfold keep at 1.
          now rewrite (shouldIgnore_extends _ _ _ Hm Hi).
        * rewrite validate_frame. simpl. exact Hrec. }
  split; [exact Hout|].
  pose proof (validate_flagMatches (ign ++ more) D P O prefix init
                flagMatches_init) as Hflag.
  fold all in Hflag. unfold flagMatches in Hflag. rewrite Hout in Hflag.
  destruct (issuesFound all) eqn:Hf.
  - symmetry. destruct Hflag as [Hne _]. specialize (Hne eq_refl).
    destruct (filter keep (stdout fewer)) as [|i l] eqn:Hfl; [congruence|].
    apply existsb_exists. exists i.
    assert (Hin : In i (filter keep (stdout fewer)))
      by (rewrite Hfl; now left).
    apply filter_In in Hin. exact Hin.
  - symmetry. apply not_true_is_false. intros Hex.
    apply existsb_exists in Hex as (i & Hin & Hk).
    assert (Hin' : In i (filter keep (stdout fewer)))
      by (apply filter_In; now split).
    destruct Hflag as [_ Hback].
    assert (Habs : false = true); [|discriminate].
    apply Hback. intros Hnil. now rewrite Hnil in Hin'.
Qed.

(** X1. Ignoring acts on the report as a filter on paths: running the
    comparator with more ignore entries prints exactly the lines of the run
    with fewer entries whose path matches none of the added entries, in the
    same order, and the flag is set exactly when such a line exists. *)
Theorem ignore_entries_filter_the_report
    (D P : Map) (O : option Map) (prefix : string) (ign more : IgnoreList) :
  let keep := fun i => negb (shouldIgnore (issuePath i) more) in
  let fewer := validateChartValues D P O prefix ign init in
  let all := validateChartValues D P O prefix (ign ++ more) init in
  stdout all = filter keep (stdout fewer)
  /\ issuesFound all = existsb keep (stdout fewer).
Proof. apply validate_ignore_app. Qed.

(** X2. Each [--ignore] flag is one call of [Set]: the call cannot fail, keeps
    the entries given before, and its effect on a run of the comparator is
    to take the lines out of the report whose path starts with the new
    value, and nothing else. *)
Theorem ignore_flag_Set_filters_the_report
    (D P : Map) (O : option Map) (prefix : string) (ign : IgnoreList)
    (value path : string) :
  let ign' := fst (IgnoreList_Set ign value) in
  snd (IgnoreList_Set ign value) = None
  /\ shouldIgnore path ign' = shouldIgnore path ign || HasPrefix path value
  /\ stdout (validateChartValues D P O prefix ign' init) =
     filter (fun i => negb (HasPrefix (issuePath i) value))
       (stdout (validateChartValues D P O prefix ign init)).
Proof.
  intros ign'. subst ign'. unfold IgnoreList_Set; simpl.
  split; [reflexivity|]. split.
  - rewrite shouldIgnore_app. simpl. now destruct (HasPrefix path value).
  - destruct (validate_ignore_app D P O prefix ign [value]) as [Hout _].
    rewrite Hout. apply filter_ext. intros i. simpl.
    now destruct (HasPrefix (issuePath i) value).
Qed.

(** X3. [shouldIgnore] is monotone: a path that is ignored stays ignored when
    it is extended and when entries are added to the list, before or after
    the old ones. In particular every path under an ignored key, built with
    [fullKeyOf], is ignored too. *)
Theorem shouldIgnore_monotone
    (path suffix : string) (ign before after : IgnoreList) :
  shouldIgnore path ign = true ->
  shouldIgnore (path ++ suffix) (before ++ ign ++ after) = true
  /\ (forall key, shouldIgnore (fullKeyOf path key) ign = true).
Proof.
  intros H. split.
  - rewrite !shouldIgnore_app.
    rewrite (shouldIgnore_extends path (path ++ suffix) ign H
               (HasPrefix_app path suffix)).
    now rewrite orb_true_r.
  - intros key. apply (shouldIgnore_extends path); [exact H|].
    apply HasPrefix_fullKeyOf.
Qed.

Lemma shouldIgnore_monotone_witness :
  shouldIgnore "resources" ["res"] = true
  /\ shouldIgnore ("resources" ++ ".limits.cpu") (["health"] ++ ["res"] ++ [])
     = true
  /\ (forall key, shouldIgnore (fullKeyOf "resources" key) ["res"] = true).
Proof.
  split; [reflexivity|].
  exact (shouldIgnore_monotone "resources" ".limits.cpu" ["res"] ["health"] []
           eq_refl).
Defined.

(** X4. An empty string among the ignore entries is a prefix of every path: the
    comparator then visits the keys at the root and reports nothing, and
    leaves the flag as it was, whatever the trees are. *)
Theorem empty_ignore_entry_silences_the_run
    (D P : Map) (O : option Map) (prefix : string) (ign : IgnoreList)
    (st : St) :
  In "" ign ->
  validateChartValues D P O prefix ign st =
  mkSt (issuesFound st) (stdout st) (iterations st + length P).
Proof.
  intros Hin.
  assert (Hall : forall path, shouldIgnore path ign = true).
  { intros path. apply shouldIgnore_spec. now exists "". }
  revert st. induction P as [|[key v] rest IH]; intros st.
  - rewrite validate_nil. destruct st; simpl. now rewrite Nat.add_0_r.
  - rewrite validate_cons, IH, validate_step.
    unfold outcome. rewrite Hall. simpl.
    f_equal. lia.
Qed.

Lemma empty_ignore_entry_witness :
  In "" ["health"; ""]
  /\ validateChartValues [("key1", VString "value1")]
       [("key1", VString "value1"); ("key2", VInt 2)] None "" ["health"; ""]
       init
     = mkSt (issuesFound init) (stdout init) (iterations init + 2).
Proof.
  split; [right; left; reflexivity|].
  apply (empty_ignore_entry_silences_the_run
           [("key1", VString "value1")]
           [("key1", VString "value1"); ("key2", VInt 2)] None ""
           ["health"; ""] init).
  right; left; reflexivity.
Defined.

Section LineFacts.

Variable ign : IgnoreList.

Lemma leafOutcome_genuine (O : option Map) (key fullKey : string)
    (d p : Value) (i : Issue) :
  isMap d = false ->
  leafOutcome O key fullKey d p = Emit i ->
  isUnexpected i = false /\ genuineMismatch i.
Proof.
  intros Hd. unfold leafOutcome.
  destruct (DeepEqual d p).
  - destruct (overrideResets O key p); [discriminate|].
    intros [= <-]. now split.
  - destruct (TypeOf d) as [td|] eqn:Etd; [|discriminate].
    destruct (TypeOf p) as [tp|]; [|discriminate].
    destruct (GoType_eqb td tp) eqn:E; [discriminate|].
    intros [= <-]. split; [reflexivity|]. simpl. split.
    + intros ->. now destruct tp.
    + intros ->. now destruct d.
Qed.

Lemma outcome_genuine (D : Map) (O : option Map) (prefix key : string)
    (v : Value) (i : Issue) :
  outcome D O prefix ign key v = Emit i ->
  isUnexpected i = false /\ genuineMismatch i.
Proof.
  unfold outcome.
  destruct (shouldIgnore _ ign); [discriminate|].
  destruct (lookup key D) as [d|]; [|discriminate].
  destruct d; try (now apply leafOutcome_genuine).
  destruct v; try discriminate; intros [= <-]; now split.
Qed.

Lemma validate_lines_genuine (D P : Map) (O : option Map) (prefix : string) :
  Forall (fun i => isUnexpected i = false /\ genuineMismatch i)
    (stdout (validateChartValues D P O prefix ign init)).
Proof.
  revert D P O prefix.
  apply (run_ind ign (fun D P O prefix =>
           Forall (fun i => isUnexpected i = false /\ genuineMismatch i)
             (stdout (validateChartValues D P O prefix ign init)))).
  - intros D O prefix. constructor.
  - intros D O prefix key v rest IHrec IHrest.
    rewrite stdout_validate_cons. simpl.
    apply Forall_app; split; [|exact IHrest].
    unfold emittedFor. rewrite validate_step.
    destruct (outcome D O prefix ign key v) as [|i|dm pm om fk] eqn:Ho.
    + constructor.
    + simpl. constructor; [|constructor]. now apply outcome_genuine in Ho.
    + rewrite validate_frame. simpl. now apply IHrec.
Qed.

Lemma validate_lines_le_iterations (D P : Map) (O : option Map)
    (prefix : string) :
  length (stdout (validateChartValues D P O prefix ign init))
  <= iterations (validateChartValues D P O prefix ign init).
Proof.
  revert D P O prefix.
  apply (run_ind ign (fun D P O prefix =>
           length (stdout (validateChartValues D P O prefix ign init))
           <= iterations (validateChartValues D P O prefix ign init))).
  - intros D O prefix. simpl. lia.
  - intros D O prefix key v rest IHrec IHrest.
    rewrite validate_cons, validate_frame. simpl.
    rewrite length_app, validate_step.
    destruct (outcome D O prefix ign key v) as [|i|dm pm om fk] eqn:Ho;
      simpl; try lia.
    rewrite validate_frame. simpl.
    pose proof (IHrec _ _ _ _ eq_refl). lia.
Qed.

End LineFacts.

(** X5. The comparator of [cmd/main.go] never prints an Unexpected-key line,
    with or without an overrides tree, and its type-mismatch lines are
    genuine: the two types of a line differ, the expected type of the
    two-type form is never a map, and the type found in the "expected map"
    form is never a map. *)
Theorem no_unexpected_key_and_genuine_mismatches
    (D P : Map) (O : option Map) (prefix : string) (ign : IgnoreList)
    (st : St) :
  exists printed,
    stdout (validateChartValues D P O prefix ign st) = stdout st ++ printed
    /\ Forall (fun i => isUnexpected i = false /\ genuineMismatch i) printed.
Proof.
  exists (stdout (validateChartValues D P O prefix ign init)). split.
  - now rewrite validate_frame.
  - apply validate_lines_genuine.
Qed.

(** X6. The comparator prints at most one line for each key of the provided
    tree that it visits: the number of lines of a run is bounded by the
    number of executions of the loop body, hence by the number of keys of
    the provided tree. *)
Theorem at_most_one_line_per_key
    (D P : Map) (O : option Map) (prefix : string) (ign : IgnoreList) :
  let st' := validateChartValues D P O prefix ign init in
  length (stdout st') <= iterations st' /\ iterations st' <= treeSize P.
Proof.
  split; [apply validate_lines_le_iterations|apply validate_iterations].
Qed.

(** ** The overrides tree *)

Section OverridesFacts.

Variable ign : IgnoreList.

Lemma overridesMapOf_noOverrides (O : option Map) (key : string) :
  noOverrides O = true -> overridesMapOf O key = [].
Proof. destruct O as [[|e m]|]; simpl; now try discriminate. Qed.

Lemma overrideResets_noOverrides (O : option Map) (key : string) (p : Value) :
  noOverrides O = true -> overrideResets O key p = false.
Proof. destruct O as [[|e m]|]; simpl; now try discriminate. Qed.

Lemma outcome_noOverrides (D : Map) (O : option Map) (prefix key : string)
    (v : Value) :
  noOverrides O = true ->
  outcome D O prefix ign key v = outcome D None prefix ign key v.
Proof.
  intros H. unfold outcome, leafOutcome.
  rewrite (overridesMapOf_noOverrides O key H).
  now rewrite (overrideResets_noOverrides O key v H).
Qed.

(** How the loop body with an overrides tree differs from the loop body
    without one: it may skip a Redundant-value line, and it hands another
    overrides map down. *)
Lemma outcome_with_overrides (D : Map) (O : option Map) (prefix key : string)
    (v : Value) :
  match outcome D O prefix ign key v, outcome D None prefix ign key v with
  | Skip, Skip => True
  | Skip, Emit (RedundantValue _ _) => True
  | Emit i, Emit j => i = j
  | Recurse dm pm _ fk, Recurse dm' pm' om' fk' =>
      dm = dm' /\ pm = pm' /\ fk = fk' /\ om' = []
  | _, _ => False
  end.
Proof.
  unfold outcome.
  destruct (shouldIgnore _ ign); [exact I|].
  destruct (lookup key D) as [d|]; [|exact I].
  assert (Hleaf :
    match leafOutcome O key (fullKeyOf prefix key) d v,
          leafOutcome None key (fullKeyOf prefix key) d v with
    | Skip, Skip => True
    | Skip, Emit (RedundantValue _ _) => True
    | Emit i, Emit j => i = j
    | Recurse dm pm _ fk, Recurse dm' pm' om' fk' =>
        dm = dm' /\ pm = pm' /\ fk = fk' /\ om' = []
    | _, _ => False
    end).
  { unfold leafOutcome. simpl.
    destruct (DeepEqual d v).
    - now destruct (overrideResets O key v).
    - destruct (TypeOf d), (TypeOf v); try exact I.
      now destruct (GoType_eqb _ _). }
  destruct d; try exact Hleaf.
  now destruct v.
Qed.

Lemma DropsRedundant_refl (l : list Issue) : DropsRedundant l l.
Proof. induction l; now constructor. Qed.

Lemma DropsRedundant_app (l1 l1' l2 l2' : list Issue) :
  DropsRedundant l1 l1' -> DropsRedundant l2 l2' ->
  DropsRedundant (l1 ++ l2) (l1' ++ l2').
Proof. induction 1; intros H2; simpl; [exact H2| |]; constructor; auto. Qed.

Lemma validate_noOverrides (D P : Map) (O : option Map) (prefix : string)
    (st : St) :
  noOverrides O = true ->
  validateChartValues D P O prefix ign st =
  validateChartValues D P None prefix ign st.
Proof.
  intros H. revert st. induction P as [|[key v] rest IH]; intros st.
  - reflexivity.
  - rewrite (validate_cons D O prefix ign key v rest).
    rewrite (validate_cons D None prefix ign key v rest).
    rewrite IH. f_equal.
    now rewrite !validate_step, outcome_noOverrides.
Qed.

Lemma validate_drops_redundant (D P : Map) (O : option Map) (prefix : string) :
  DropsRedundant
    (stdout (validateChartValues D P O prefix ign init))
    (stdout (validateChartValues D P None prefix ign init)).
Proof.
  revert D P O prefix.
  apply (run_ind ign (fun D P O prefix =>
           DropsRedundant
             (stdout (validateChartValues D P O prefix ign init))
             (stdout (validateChartValues D P None prefix ign init)))).
  - intros D O prefix. constructor.
  - intros D O prefix key v rest IHrec IHrest.
    rewrite !stdout_validate_cons. simpl.
    apply DropsRedundant_app; [|exact IHrest].
    unfold emittedFor. rewrite !validate_step.
    pose proof (outcome_with_overrides D O prefix key v) as Hrel.
    destruct (outcome D O prefix ign key v) as [|i|dm pm om fk] eqn:Ho;
      destruct (outcome D None prefix ign key v) as [|j|dm' pm' om' fk'];
      try contradiction.
    + constructor.
    + destruct j; try contradiction. simpl. repeat constructor.
    + subst j. apply DropsRedundant_refl.
    + destruct Hrel as (<- & <- & <- & ->).
      rewrite (validate_frame ign dm pm (Some om)).
      rewrite (validate_frame ign dm pm (Some [])). simpl.
      rewrite (validate_noOverrides dm pm (Some []) fk init eq_refl).
      now apply IHrec.
Qed.

End OverridesFacts.

(** X7. An overrides tree that is nil and one that is an empty map give the
    same run: an empty overrides file changes nothing. *)
Theorem empty_overrides_as_no_overrides
    (D P : Map) (prefix : string) (ign : IgnoreList) (st : St) :
  validateChartValues D P (Some []) prefix ign st =
  validateChartValues D P None prefix ign st.
Proof. now apply validate_noOverrides. Qed.

(** X8. An overrides tree only ever takes Redundant-value lines out of the
    report: the lines printed with an overrides tree are the lines printed
    without one, in the same order, less some Redundant-value lines. No
    line is added and no type-mismatch line is lost. *)
Theorem overrides_only_drop_redundant_lines
    (D P : Map) (O : option Map) (prefix : string) (ign : IgnoreList) :
  DropsRedundant
    (stdout (validateChartValues D P O prefix ign init))
    (stdout (validateChartValues D P None prefix ign init)).
Proof. apply validate_drops_redundant. Qed.

(** X9. A key of the provided tree that the defaults tree does not have is
    passed over in silence by the comparator of [cmd/main.go], with or
    without an overrides tree: when no key at the root of the provided tree
    is a key of the defaults, the run prints nothing and leaves the flag as
    it was, whatever lies under the keys. *)
Theorem keys_absent_from_defaults_are_silent
    (D P : Map) (O : option Map) (prefix : string) (ign : IgnoreList)
    (st : St) :
  Forall (fun key => lookup key D = None) (keys P) ->
  validateChartValues D P O prefix ign st =
  mkSt (issuesFound st) (stdout st) (iterations st + length P).
Proof.
  revert st. induction P as [|[key v] rest IH]; intros st H.
  - rewrite validate_nil. destruct st; simpl. now rewrite Nat.add_0_r.
  - inversion_clear H as [|? ? Hkey Hrest]. simpl in Hkey.
    rewrite validate_cons, (IH _ Hrest), validate_step.
    unfold outcome. rewrite Hkey.
    destruct (shouldIgnore _ ign); simpl; f_equal; lia.
Qed.

Lemma keys_absent_from_defaults_witness :
  let D := [("replicas", VInt 1)] in
  let P := [("maxReplicaCount", VInt 3);
            ("autoscaling", VMap [("enabled", VBool true)])] in
  Forall (fun key => lookup key D = None) (keys P)
  /\ validateChartValues D P None "" [] init
     = mkSt (issuesFound init) (stdout init) (iterations init + length P).
Proof.
  intros D P.
  assert (H : Forall (fun key => lookup key D = None) (keys P))
    by (repeat constructor).
  split; [exact H|].
  exact (keys_absent_from_defaults_are_silent D P None "" [] init H).
Defined.

(** ** Where the lines come from *)

Section Paths.

Variable ign : IgnoreList.

Lemma pathsOf_cons (prefix key : string) (v : Value) (rest : Map) :
  pathsOf prefix ((key, v) :: rest) =
  fullKeyOf prefix key
    :: pathsOfValue v (fullKeyOf prefix key) ++ pathsOf prefix rest.
Proof. reflexivity. Qed.

Lemma pathsOf_lookup (prefix key : string) (D : Map) (d : Value) :
  lookup key D = Some d ->
  In (fullKeyOf prefix key) (pathsOf prefix D)
  /\ incl (pathsOfValue d (fullKeyOf prefix key)) (pathsOf prefix D).
Proof.
  intros Hl. apply lookup_In in Hl.
  induction D as [|[k x] D IH]; [inversion Hl|].
  rewrite pathsOf_cons.
  destruct Hl as [[= -> ->]|Hl].
  - split; [now left|].
    intros q Hq. right. apply in_or_app. now left.
  - destruct (IH Hl) as [Hin Hincl]. split.
    + right. apply in_or_app. now right.
    + intros q Hq. right. apply in_or_app. right. now apply Hincl.
Qed.

Lemma outcome_Emit_lookup (D : Map) (O : option Map) (prefix key : string)
    (v : Value) (i : Issue) :
  outcome D O prefix ign key v = Emit i ->
  exists d, lookup key D = Some d.
Proof.
  unfold outcome.
  destruct (shouldIgnore _ ign); [discriminate|].
  destruct (lookup key D) as [d|]; [|discriminate].
  intros _. now exists d.
Qed.

Lemma validate_paths_in_both (D P : Map) (O : option Map) (prefix : string) :
  Forall (fun i => In (issuePath i) (pathsOf prefix P)
                   /\ In (issuePath i) (pathsOf prefix D))
    (stdout (validateChartValues D P O prefix ign init)).
Proof.
  revert D P O prefix.
  apply (run_ind ign (fun D P O prefix =>
           Forall (fun i => In (issuePath i) (pathsOf prefix P)
                            /\ In (issuePath i) (pathsOf prefix D))
             (stdout (validateChartValues D P O prefix ign init)))).
  - intros D O prefix. constructor.
  - intros D O prefix key v rest IHrec IHrest.
    rewrite stdout_validate_cons, pathsOf_cons. simpl app.
    apply Forall_app; split.
    2:{ eapply Forall_impl; [|exact IHrest].
        intros i [HP HD]. split; [|exact HD].
        right. apply in_or_app. now right. }
    unfold emittedFor. rewrite validate_step.
    destruct (outcome D O prefix ign key v) as [|i|dm pm om fk] eqn:Ho.
    + constructor.
    + simpl. constructor; [|constructor].
      destruct (outcome_Emit_lookup D O prefix key v i Ho) as [d Hl].
      apply outcome_Emit_inv in Ho as [-> _].
      split; [now left|].
      exact (proj1 (pathsOf_lookup prefix key D d Hl)).
    + rewrite validate_frame. simpl.
      pose proof (IHrec _ _ _ _ eq_refl) as Hrec.
      apply outcome_Recurse_inv in Ho as (-> & Hl & _ & -> & _).
      eapply Forall_impl; [|exact Hrec].
      intros i [HP HD]. split.
      * right. apply in_or_app. now left.
      * exact (proj2 (pathsOf_lookup prefix key D (VMap dm) Hl) _ HD).
Qed.

End Paths.

(** X10. The comparator of [cmd/main.go] reports only at keys that both trees
    have: the path of every line it prints is the full path of a key of the
    provided tree and also the full path of a key of the defaults tree, and
    it starts with the prefix the run was given. *)
Theorem lines_sit_at_keys_of_both_trees
    (D P : Map) (O : option Map) (prefix : string) (ign : IgnoreList) :
  Forall (fun i => In (issuePath i) (pathsOf prefix P)
                   /\ In (issuePath i) (pathsOf prefix D)
                   /\ HasPrefix (issuePath i) prefix = true)
    (stdout (validateChartValues D P O prefix ign init)).
Proof.
  pose proof (validate_paths_in_both ign D P O prefix) as H1.
  pose proof (validate_paths_prefixed ign D P O prefix) as H2.
  rewrite Forall_forall in *. intros i Hi.
  destruct (H1 i Hi) as [HP HD]. repeat split; auto.
Qed.

(** ** The two variants side by side *)

Section BaselineRuns.

Variable ign : IgnoreList.

Lemma baseline_compareLeaf_outcome (fullKey key : string) (d p : Value)
    (st : St) :
  Baseline.compareLeaf fullKey d p st =
  match leafOutcome None key fullKey d p with
  | Emit i => report i st
  | _ => st
  end.
Proof.
  unfold Baseline.compareLeaf, leafOutcome. simpl.
  destruct (DeepEqual d p); [reflexivity|].
  destruct (TypeOf d), (TypeOf p); try reflexivity.
  now destruct (GoType_eqb _ _).
Qed.

(** One execution of the loop body of the variant, by cases. *)
Lemma baseline_validate_step (D : Map) (prefix key : string) (v : Value)
    (st : St) :
  Baseline.validateChartValues D [(key, v)] prefix ign st =
  match baselineOutcome D prefix ign key v with
  | Skip => tick st
  | Emit i => report i (tick st)
  | Recurse dm pm _ fk => Baseline.validateChartValues dm pm fk ign (tick st)
  end.
Proof.
  unfold Baseline.validateChartValues, baselineOutcome; simpl.
  destruct (shouldIgnore _ ign); [reflexivity|].
  destruct (lookup key D) as [d|]; [|reflexivity].
  destruct d; try (rewrite (baseline_compareLeaf_outcome _ key);
    match goal with
    | |- context [leafOutcome ?a ?b ?c ?d ?e] =>
        pose proof (leafOutcome_not_Recurse a b c d e) as Hn;
        destruct (leafOutcome a b c d e); try reflexivity;
        exfalso; eapply Hn; reflexivity
    end).
  now destruct v.
Qed.

Lemma baseline_stdout_cons (D : Map) (prefix key : string) (v : Value)
    (rest : Map) :
  Baseline.validateChartValues D ((key, v) :: rest) prefix ign init =
  St_app (Baseline.validateChartValues D [(key, v)] prefix ign init)
         (Baseline.validateChartValues D rest prefix ign init).
Proof. now rewrite baseline_validate_cons, baseline_validate_frame. Qed.

(** The loop body of [cmd/main.go] without overrides against the loop body
    of the variant: the same, but for the Unexpected-key line. *)
Lemma outcome_against_baseline (D : Map) (prefix key : string) (v : Value) :
  match outcome D None prefix ign key v, baselineOutcome D prefix ign key v with
  | Skip, Skip => True
  | Skip, Emit (UnexpectedKey _) => True
  | Emit i, Emit j => i = j /\ isUnexpected i = false
  | Recurse dm pm _ fk, Recurse dm' pm' _ fk' =>
      dm = dm' /\ pm = pm' /\ fk = fk'
  | _, _ => False
  end.
Proof.
  unfold outcome, baselineOutcome.
  destruct (shouldIgnore _ ign); [exact I|].
  destruct (lookup key D) as [d|]; [|exact I].
  assert (Hleaf : isMap d = false ->
    match leafOutcome None key (fullKeyOf prefix key) d v,
          leafOutcome None key (fullKeyOf prefix key) d v with
    | Skip, Skip => True
    | Skip, Emit (UnexpectedKey _) => True
    | Emit i, Emit j => i = j /\ isUnexpected i = false
    | Recurse dm pm _ fk, Recurse dm' pm' _ fk' =>
        dm = dm' /\ pm = pm' /\ fk = fk'
    | _, _ => False
    end).
  { intros Hd.
    pose proof (leafOutcome_genuine None key (fullKeyOf prefix key) d v) as Hg.
    destruct (leafOutcome None key (fullKeyOf prefix key) d v) as [|i|];
      [exact I| |now repeat split].
    split; [reflexivity|]. now apply (Hg i Hd). }
  destruct d; try (now apply Hleaf).
  now destruct v.
Qed.

Lemma validate_against_baseline_bounded (n : nat) :
  forall D P O prefix, treeSize P < n -> noOverrides O = true ->
    stdout (validateChartValues D P O prefix ign init) =
    filter (fun i => negb (isUnexpected i))
      (stdout (Baseline.validateChartValues D P prefix ign init))
    /\ iterations (validateChartValues D P O prefix ign init) =
       iterations (Baseline.validateChartValues D P prefix ign init).
Proof.
  induction n as [|n IH]; intros D P O prefix Hn HO; [lia|].
  rewrite (validate_noOverrides ign D P O prefix init HO).
  destruct P as [|[key v] rest]; [now split|].
  rewrite treeSize_cons in Hn.
  rewrite validate_cons_app, baseline_stdout_cons. simpl.
  destruct (IH D rest None prefix ltac:(lia) eq_refl) as [IHout IHit].
  rewrite filter_app, IHout, IHit.
  rewrite validate_step, baseline_validate_step.
  pose proof (outcome_against_baseline D prefix key v) as Hrel.
  destruct (outcome D None prefix ign key v) as [|i|dm pm om fk] eqn:Ho;
    destruct (baselineOutcome D prefix ign key v) as [|j|dm' pm' om' fk'];
    try contradiction.
  - now split.
  - destruct j; try contradiction. now split.
  - destruct Hrel as [<- Hu]. simpl. now rewrite Hu.
  - destruct Hrel as (<- & <- & <-).
    destruct (outcome_Recurse_inv D None prefix ign key v dm pm om fk Ho)
      as (-> & _ & Hom & _).
    rewrite keyCount_VMap in Hn.
    destruct (IH dm pm (Some om) fk ltac:(lia)) as [Hout Hit].
    { now rewrite Hom. }
    rewrite (validate_frame ign dm pm), (baseline_validate_frame ign dm pm).
    simpl. now rewrite Hout, Hit.
Qed.

End BaselineRuns.

(** X11. Run without an overrides tree (nil or empty), the comparator of
    [cmd/main.go] prints exactly the lines that the variant prints, in the
    same order, less the Unexpected-key lines, after the same number of
    executions of the loop body. The commented-out report is the only
    difference between the two. *)
Theorem variants_agree_but_for_unexpected_keys
    (D P : Map) (O : option Map) (prefix : string) (ign : IgnoreList) :
  noOverrides O = true ->
  stdout (validateChartValues D P O prefix ign init) =
  filter (fun i => negb (isUnexpected i))
    (stdout (Baseline.validateChartValues D P prefix ign init))
  /\ iterations (validateChartValues D P O prefix ign init) =
     iterations (Baseline.validateChartValues D P prefix ign init).
Proof.
  intros HO.
  apply (validate_against_baseline_bounded ign (S (treeSize P))); [lia|exact HO].
Qed.

Lemma variants_agree_witness :
  let D := [("replicas", VInt 1); ("image", VMap [("tag", VString "v1")])] in
  let P := [("maxReplicaCount", VInt 3); ("replicas", VInt 1);
            ("image", VMap [("tag", VInt 2); ("digest", VString "sha")])] in
  noOverrides None = true
  /\ stdout (validateChartValues D P None "" [] init) =
     filter (fun i => negb (isUnexpected i))
       (stdout (Baseline.validateChartValues D P "" [] init))
  /\ iterations (validateChartValues D P None "" [] init) =
     iterations (Baseline.validateChartValues D P "" [] init).
Proof.
  intros D P. split; [reflexivity|].
  exact (variants_agree_but_for_unexpected_keys D P None "" [] eq_refl).
Defined.

Section BaselineInvariants.

Variable ign : IgnoreList.

Lemma baselineOutcome_Recurse_inv (D : Map) (prefix key : string) (v : Value)
    (dm pm om : Map) (fk : string) :
  baselineOutcome D prefix ign key v = Recurse dm pm om fk ->
  v = VMap pm /\ fk = fullKeyOf prefix key.
Proof.
  unfold baselineOutcome.
  destruct (shouldIgnore _ ign); [discriminate|].
  destruct (lookup key D) as [d|]; [|discriminate].
  destruct d; try (intros H; exfalso; eapply leafOutcome_not_Recurse; exact H).
  destruct v; try discriminate.
  intros [= <- <- <- <-]. now split.
Qed.

Lemma baselineOutcome_Emit_inv (D : Map) (prefix key : string) (v : Value)
    (i : Issue) :
  baselineOutcome D prefix ign key v = Emit i ->
  issuePath i = fullKeyOf prefix key
  /\ shouldIgnore (fullKeyOf prefix key) ign = false.
Proof.
  unfold baselineOutcome.
  destruct (shouldIgnore _ ign) eqn:Hi; [discriminate|].
  destruct (lookup key D) as [d|]; [|now intros [= <-]].
  assert (Hleaf : forall d',
            leafOutcome None key (fullKeyOf prefix key) d' v = Emit i ->
            issuePath i = fullKeyOf prefix key /\ false = false).
  { intros d'. unfold leafOutcome. simpl.
    destruct (DeepEqual d' v); [now intros [= <-]|].
    destruct (TypeOf d'), (TypeOf v); try discriminate.
    destruct (GoType_eqb _ _); [discriminate|]. now intros [= <-]. }
  destruct d; try apply Hleaf.
  destruct v; try (now intros [= <-]); discriminate.
Qed.

(** Induction along the runs of the variant. *)
Lemma baseline_run_ind (Q : Map -> Map -> string -> Prop) :
  (forall D prefix, Q D [] prefix) ->
  (forall D prefix key v rest,
      (forall dm pm om fk,
          baselineOutcome D prefix ign key v = Recurse dm pm om fk ->
          Q dm pm fk) ->
      Q D rest prefix ->
      Q D ((key, v) :: rest) prefix) ->
  forall D P prefix, Q D P prefix.
Proof.
  intros Hnil Hcons.
  assert (H : forall n D P prefix, treeSize P < n -> Q D P prefix).
  { induction n as [|n IH]; intros D P prefix Hn; [lia|].
    destruct P as [|[key v] rest]; [apply Hnil|].
    rewrite treeSize_cons in Hn. apply Hcons.
    - intros dm pm om fk Ho.
      apply baselineOutcome_Recurse_inv in Ho as (-> & _).
      apply IH. rewrite keyCount_VMap in Hn. lia.
    - apply IH. lia. }
  intros D P prefix. apply (H (S (treeSize P))). lia.
Qed.

Lemma baseline_invariants (D P : Map) (prefix : string) :
  let r := Baseline.validateChartValues D P prefix ign init in
  flagMatches r
  /\ Forall (fun i => shouldIgnore (issuePath i) ign = false) (stdout r)
  /\ length (stdout r) <= iterations r
  /\ iterations r <= treeSize P.
Proof.
  revert D P prefix.
  apply (baseline_run_ind (fun D P prefix =>
           let r := Baseline.validateChartValues D P prefix ign init in
           flagMatches r
           /\ Forall (fun i => shouldIgnore (issuePath i) ign = false) (stdout r)
           /\ length (stdout r) <= iterations r
           /\ iterations r <= treeSize P)).
  - intros D prefix. simpl. repeat split; try lia; try constructor;
      now apply flagMatches_init.
  - intros D prefix key v rest IHrec (Hflag & Hign & Hlen & Hit).
    cbv zeta in *.
    rewrite baseline_stdout_cons, treeSize_cons.
    set (one := Baseline.validateChartValues D [(key, v)] prefix ign init).
    set (r := Baseline.validateChartValues D rest prefix ign init) in *.
    assert (Hone : flagMatches one
              /\ Forall (fun i => shouldIgnore (issuePath i) ign = false)
                   (stdout one)
              /\ length (stdout one) <= iterations one
              /\ iterations one <= S (keyCount v)).
    { subst one. rewrite baseline_validate_step.
      destruct (baselineOutcome D prefix ign key v) as [|i|dm pm om fk] eqn:Ho.
      - split; [apply flagMatches_tick, flagMatches_init|].
        simpl. split; [constructor|]. split; lia.
      - apply baselineOutcome_Emit_inv in Ho as [Hp Hi].
        split; [apply flagMatches_report|].
        simpl. split; [|split; lia].
        constructor; [|constructor]. now rewrite Hp.
      - destruct (IHrec _ _ _ _ eq_refl) as (Hf & Hg & Hl & Hi).
        apply baselineOutcome_Recurse_inv in Ho as (-> & _).
        rewrite baseline_validate_frame. rewrite keyCount_VMap.
        split; [|simpl; split; [exact Hg|split; lia]].
        unfold flagMatches in *. simpl. exact Hf. }
    destruct Hone as (Hf1 & Hg1 & Hl1 & Hi1).
    split; [|simpl; split; [apply Forall_app; now split|]].
    { unfold flagMatches in *. simpl. split.
      - intros H. apply orb_true_iff in H as [H|H].
        + apply Hf1 in H. intros Hnil.
          now apply app_eq_nil in Hnil as [? _].
        + apply Hflag in H. intros Hnil.
          now apply app_eq_nil in Hnil as [_ ?].
      - intros H. apply orb_true_iff.
        destruct (stdout one) as [|i l] eqn:E.
        + right. apply Hflag. exact H.
        + left. apply Hf1. discriminate. }
    rewrite length_app. split; lia.
Qed.

End BaselineInvariants.

(** X12. The variant without an overrides tree keeps the invariants of the
    comparator: a run adds lines to the output and sets the flag exactly
    when it was set or a line is added, prints no line at an ignored path,
    and prints at most one line for each key of the provided tree. *)
Theorem baseline_variant_invariants
    (D P : Map) (prefix : string) (ign : IgnoreList) (st : St) :
  let st' := Baseline.validateChartValues D P prefix ign st in
  exists printed,
    stdout st' = stdout st ++ printed
    /\ (issuesFound st' = true <-> issuesFound st = true \/ printed <> [])
    /\ Forall (fun i => shouldIgnore (issuePath i) ign = false) printed
    /\ length printed <= treeSize P
    /\ iterations st' <= iterations st + treeSize P.
Proof.
  intros st'. subst st'.
  destruct (baseline_invariants ign D P prefix) as (Hf & Hg & Hl & Hi).
  exists (stdout (Baseline.validateChartValues D P prefix ign init)).
  rewrite baseline_validate_frame. simpl. unfold flagMatches in Hf.
  split; [reflexivity|]. split; [|split; [exact Hg|split; lia]].
  split.
  - intros H. apply orb_true_iff in H as [H|H]; [now left|right].
    now apply Hf.
  - intros [H|H]; apply orb_true_iff; [now left|right]. now apply Hf.
Qed.

(** X13. When no key at the root of the provided tree is a key of the defaults,
    the variant prints one Unexpected-key line for each key whose path is
    not ignored, in the order of the traversal, and nothing else. *)
Theorem baseline_reports_every_absent_key
    (D P : Map) (prefix : string) (ign : IgnoreList) :
  Forall (fun key => lookup key D = None) (keys P) ->
  stdout (Baseline.validateChartValues D P prefix ign init) =
  map (fun key => UnexpectedKey (fullKeyOf prefix key))
    (filter (fun key => negb (shouldIgnore (fullKeyOf prefix key) ign))
       (keys P)).
Proof.
  induction P as [|[key v] rest IH]; intros H; [reflexivity|].
  inversion_clear H as [|? ? Hkey Hrest]. simpl in Hkey.
  rewrite baseline_stdout_cons. simpl stdout. rewrite (IH Hrest).
  rewrite baseline_validate_step. unfold baselineOutcome. rewrite Hkey.
  simpl. now destruct (shouldIgnore _ ign).
Qed.

Lemma baseline_reports_absent_witness :
  let D := [("replicas", VInt 1)] in
  let P := [("maxReplicaCount", VInt 3);
            ("resources", VMap [("cpu", VInt 1)]);
            ("minReplicaCount", VInt 1)] in
  Forall (fun key => lookup key D = None) (keys P)
  /\ stdout (Baseline.validateChartValues D P "" ["resources"] init) =
     map (fun key => UnexpectedKey (fullKeyOf "" key))
       (filter (fun key => negb (shouldIgnore (fullKeyOf "" key) ["resources"]))
          (keys P)).
Proof.
  intros D P.
  assert (H : Forall (fun key => lookup key D = None) (keys P))
    by (repeat constructor).
  split; [exact H|].
  exact (baseline_reports_every_absent_key D P "" ["resources"] H).
Defined.

(** ** Pairs of values files: the order of the result *)


Section StringOrder.

Lemma ascii_compare_refl (a : ascii) : Ascii.compare a a = Eq.
Proof. unfold Ascii.compare. apply N.compare_refl. Qed.

Lemma ascii_compare_lt_trans (a b c : ascii) :
  Ascii.compare a b = Lt -> Ascii.compare b c = Lt -> Ascii.compare a c = Lt.
Proof.
  unfold Ascii.compare. rewrite !N.compare_lt_iff. apply N.lt_trans.
Qed.

Lemma string_compare_refl (s : string) : String.compare s s = Eq.
Proof.
  induction s as [|c s IH]; simpl; [reflexivity|].
  now rewrite ascii_compare_refl.
Qed.

Lemma string_compare_lt_trans (s t u : string) :
  String.compare s t = Lt -> String.compare t u = Lt ->
  String.compare s u = Lt.
Proof.
  revert t u; induction s as [|a s IH]; intros [|b t] [|c u]; simpl;
    try congruence.
  destruct (Ascii.compare a b) eqn:Hab; try discriminate;
    destruct (Ascii.compare b c) eqn:Hbc; try discriminate; intros Hst Htu.
  - apply Ascii.compare_eq_iff in Hab, Hbc. subst.
    rewrite ascii_compare_refl. now apply IH with t.
  - apply Ascii.compare_eq_iff in Hab. subst. now rewrite Hbc.
  - apply Ascii.compare_eq_iff in Hbc. subst. now rewrite Hab.
  - now rewrite (ascii_compare_lt_trans a b c Hab Hbc).
Qed.

Lemma ltb_irrefl (s : string) : String.ltb s s = false.
Proof. unfold String.ltb. now rewrite string_compare_refl. Qed.

Lemma ltb_trans (s t u : string) :
  String.ltb s t = true -> String.ltb t u = true -> String.ltb s u = true.
Proof.
  unfold String.ltb.
  destruct (String.compare s t) eqn:Hst; try discriminate.
  destruct (String.compare t u) eqn:Htu; try discriminate.
  now rewrite (string_compare_lt_trans s t u Hst Htu).
Qed.

Lemma ltb_trichotomy (s t : string) :
  String.ltb s t = true \/ s = t \/ String.ltb t s = true.
Proof.
  unfold String.ltb. rewrite (String.compare_antisym t s).
  destruct (String.compare s t) eqn:Hst; simpl; auto.
  right; left. now apply String.compare_eq_iff.
Qed.

Lemma ltb_asym (s t : string) :
  String.ltb s t = true -> String.ltb t s = false.
Proof.
  unfold String.ltb. rewrite (String.compare_antisym t s).
  now destruct (String.compare s t).
Qed.

End StringOrder.

Section PairOrder.

Lemma pairLess_irrefl (p : valuePair) : pairLess p p = false.
Proof. unfold pairLess. rewrite String.eqb_refl. apply ltb_irrefl. Qed.

Lemma pairLess_trans (p q r : valuePair) :
  pairLess p q = true -> pairLess q r = true -> pairLess p r = true.
Proof.
  destruct p as [po ps], q as [qo qs], r as [ro rs].
  unfold pairLess; simpl.
  destruct (String.eqb_spec po qo) as [Epq|Npq];
    destruct (String.eqb_spec qo ro) as [Eqr|Nqr];
    destruct (String.eqb_spec po ro) as [Epr|Npr];
    subst; intros H1 H2; try contradiction; try assumption.
  - now apply ltb_trans with qs.
  - rewrite (ltb_asym _ _ H1) in H2. discriminate.
  - now apply ltb_trans with qo.
Qed.

Lemma pairLess_trichotomy (p q : valuePair) :
  pairLess p q = true \/ p = q \/ pairLess q p = true.
Proof.
  unfold pairLess. rewrite (String.eqb_sym (override q) (override p)).
  destruct (String.eqb_spec (override p) (override q)) as [E|N].
  - destruct (ltb_trichotomy (service p) (service q)) as [H|[H|H]]; auto.
    right; left. destruct p, q; simpl in *. congruence.
  - destruct (ltb_trichotomy (override p) (override q)) as [H|[H|H]]; auto.
Qed.

Lemma pairLess_asym (p q : valuePair) :
  pairLess p q = true -> pairLess q p = false.
Proof.
  intros H. destruct (pairLess q p) eqn:E; [|reflexivity].
  pose proof (pairLess_trans p q p H E) as Habs.
  now rewrite pairLess_irrefl in Habs.
Qed.

Lemma pairLe_trans (p q r : valuePair) :
  pairLe p q -> pairLe q r -> pairLe p r.
Proof.
  unfold pairLe. intros Hpq Hqr.
  destruct (pairLess r p) eqn:E; [|reflexivity].
  destruct (pairLess_trichotomy p q) as [H|[H|H]].
  - rewrite (pairLess_trans r p q E H) in Hqr. discriminate.
  - subst. congruence.
  - congruence.
Qed.

Lemma pairLe_antisym (p q : valuePair) : pairLe p q -> pairLe q p -> p = q.
Proof.
  unfold pairLe. intros Hpq Hqp.
  destruct (pairLess_trichotomy p q) as [H|[H|H]]; congruence.
Qed.

Lemma insertPair_perm (p : valuePair) (l : list valuePair) :
  Permutation (p :: l) (insertPair p l).
Proof.
  induction l as [|q l IH]; simpl; [reflexivity|].
  destruct (pairLess q p); [|reflexivity].
  rewrite perm_swap. now constructor.
Qed.

Lemma sortPairs_perm (l : list valuePair) : Permutation l (sortPairs l).
Proof.
  induction l as [|p l IH]; simpl; [reflexivity|].
  rewrite <- insertPair_perm. now constructor.
Qed.

Lemma insertPair_sorted (p : valuePair) (l : list valuePair) :
  StronglySorted pairLe l -> StronglySorted pairLe (insertPair p l).
Proof.
  induction 1 as [|q l Hl IH Hq]; simpl.
  - repeat constructor.
  - destruct (pairLess q p) eqn:E.
    + constructor; [exact IH|].
      rewrite <- insertPair_perm. constructor; [|exact Hq].
      unfold pairLe. now apply pairLess_asym.
    + constructor; [now constructor|].
      constructor; [exact E|].
      eapply Forall_impl; [|exact Hq].
      intros r Hr. now apply pairLe_trans with q.
Qed.

Lemma sortPairs_sorted (l : list valuePair) :
  StronglySorted pairLe (sortPairs l).
Proof.
  induction l as [|p l IH]; simpl; [constructor|].
  now apply insertPair_sorted.
Qed.

Lemma sorted_perm_unique (l l' : list valuePair) :
  StronglySorted pairLe l -> StronglySorted pairLe l' ->
  Permutation l l' -> l = l'.
Proof.
  intros Hl. revert l'. induction Hl as [|p l Hl IH Hp]; intros l' Hl' Hperm.
  - apply Permutation_nil in Hperm. now subst.
  - destruct Hl' as [|q l' Hl' Hq].
    + symmetry in Hperm. now apply Permutation_nil in Hperm.
    + assert (Hpq : p = q).
      { apply pairLe_antisym.
        - assert (Hin : In q (p :: l))
            by (apply (Permutation_in q (Permutation_sym Hperm)); now left).
          destruct Hin as [->|Hin]; [apply pairLess_irrefl|].
          rewrite Forall_forall in Hp. now apply Hp.
        - assert (Hin : In p (q :: l'))
            by (apply (Permutation_in p Hperm); now left).
          destruct Hin as [->|Hin]; [apply pairLess_irrefl|].
          rewrite Forall_forall in Hq. now apply Hq. }
      subst q. f_equal.
      apply IH; [exact Hl'|]. now apply Permutation_cons_inv with p.
Qed.

End PairOrder.

(** X14. The comparison that [detectPairs] hands to [sort.Slice] is a strict
    total order on pairs, by override path and then by service path: no
    pair is less than itself, the comparison is transitive, and of two
    different pairs exactly one is less than the other. The sorted slice is
    therefore the same whatever the sorting algorithm and whatever the
    order in which the pairs were found: it is the one list that holds the
    pairs found and is in order. *)
Theorem pairs_are_sorted_by_a_strict_total_order
    (p q r : valuePair) (found sorted : list valuePair) :
  pairLess p p = false
  /\ (pairLess p q = true -> pairLess q r = true -> pairLess p r = true)
  /\ (pairLess p q = true \/ p = q \/ pairLess q p = true)
  /\ (pairLess p q = true -> pairLess q p = false)
  /\ Permutation found (sortPairs found)
  /\ StronglySorted pairLe (sortPairs found)
  /\ (Permutation found sorted -> StronglySorted pairLe sorted ->
      sorted = sortPairs found).
Proof.
  split; [apply pairLess_irrefl|].
  split; [apply pairLess_trans|].
  split; [apply pairLess_trichotomy|].
  split; [apply pairLess_asym|].
  split; [apply sortPairs_perm|].
  split; [apply sortPairs_sorted|].
  intros Hperm Hsorted. apply sorted_perm_unique.
  - exact Hsorted.
  - apply sortPairs_sorted.
  - rewrite <- Hperm. apply sortPairs_perm.
Qed.

(** ** Pairs of values files: the search *)

Section FindOverride.

Variable Dir : string -> string.
Variable Base : string -> string.
Variable PathJoin : string -> string -> string.
Variable isRegular : string -> bool.

Let candidate (j : nat) (d : string) : string :=
  PathJoin (ancestor Dir j d) "overrides.yaml".

Lemma findOverride_climb (fuel k : nat) (baseDir d : string) :
  k < fuel ->
  (forall j, j < k ->
     isRegular (candidate j d) = false
     /\ ancestor Dir j d <> baseDir
     /\ Dir (ancestor Dir j d) <> ancestor Dir j d) ->
  (isRegular (candidate k d) = true ->
   findOverride Dir PathJoin isRegular fuel baseDir d = Some (candidate k d))
  /\ (isRegular (candidate k d) = false ->
      ancestor Dir k d = baseDir \/ Dir (ancestor Dir k d) = ancestor Dir k d ->
      findOverride Dir PathJoin isRegular fuel baseDir d = Some "").
Proof.
  revert fuel d. induction k as [|k IH]; intros fuel d Hfuel Hbelow.
  - destruct fuel as [|fuel]; [lia|]. unfold candidate; simpl. split.
    + now intros ->.
    + intros -> [->|Hroot].
      * now rewrite String.eqb_refl.
      * rewrite Hroot, String.eqb_refl. now destruct (String.eqb d baseDir).
  - destruct fuel as [|fuel]; [lia|].
    destruct (Hbelow 0 ltac:(lia)) as (Hreg & Hbase & Hroot).
    unfold candidate in *; simpl in Hreg, Hbase, Hroot.
    assert (Hstep : findOverride Dir PathJoin isRegular (S fuel) baseDir d =
                    findOverride Dir PathJoin isRegular fuel baseDir (Dir d)).
    { simpl. rewrite Hreg.
      apply String.eqb_neq in Hbase, Hroot. now rewrite Hbase, Hroot. }
    rewrite Hstep. simpl ancestor.
    apply (IH fuel (Dir d)); [lia|].
    intros j Hj. apply (Hbelow (S j)). lia.
Qed.

Variable depth : string -> nat.
Hypothesis Dir_descends : forall d, Dir d = d \/ depth (Dir d) < depth d.

Lemma findOverride_total (fuel : nat) (baseDir d : string) :
  depth d < fuel ->
  exists r, findOverride Dir PathJoin isRegular fuel baseDir d = Some r.
Proof.
  revert d. induction fuel as [|fuel IH]; intros d Hfuel; [lia|].
  simpl. destruct (isRegular _); [eauto|].
  destruct (String.eqb d baseDir); [eauto|].
  destruct (String.eqb_spec (Dir d) d) as [E|N]; [eauto|].
  apply IH. destruct (Dir_descends d); [contradiction|lia].
Qed.

Lemma walk_found (fuel : nat) (baseDir chartName : string)
    (events : list WalkEvent) :
  walkable Dir depth fuel events ->
  forall acc, exists found,
    walk Dir Base PathJoin isRegular fuel baseDir chartName events acc =
    Some (inl (acc ++ found))
    /\ forall o s,
         In (mkPair o s) found <->
         In (Visit s false) events
         /\ Base s = (chartName ++ ".yaml")%string
         /\ findOverride Dir PathJoin isRegular fuel baseDir (Dir s) = Some o
         /\ o <> "".
Proof.
  induction 1 as [|e events He _ IH]; intros acc.
  - exists []. split; [now rewrite app_nil_r|].
    intros o s. split; [intros []|now intros ([] & _)].
  - destruct e as [path isDir|path err]; [|contradiction].
    simpl walk. unfold walkFn.
    destruct (negb isDir && String.eqb (Base path) (chartName ++ ".yaml"))
      eqn:Hmatch.
    + apply andb_true_iff in Hmatch as [Hdir Hname].
      apply negb_true_iff in Hdir. apply String.eqb_eq in Hname. subst isDir.
      destruct (findOverride_total fuel baseDir (Dir path) He) as [r Hr].
      rewrite Hr.
      destruct (String.eqb_spec r "") as [Er|Nr].
      * destruct (IH acc) as (found & Hwalk & Hfound).
        exists found. split; [exact Hwalk|].
        intros o s. rewrite Hfound. split.
        -- intros (Hin & Hrest). split; [now right|exact Hrest].
        -- intros ([[= <-]|Hin] & Hb & Hf & Ho); [|now repeat split].
           congruence.
      * destruct (IH (acc ++ [mkPair r path])) as (found & Hwalk & Hfound).
        exists (mkPair r path :: found). split.
        -- rewrite Hwalk. now rewrite <- app_assoc.
        -- intros o s. simpl. rewrite Hfound. split.
           ++ intros [[= <- <-]|(Hin & Hrest)].
              ** repeat split; auto.
              ** split; [now right|exact Hrest].
           ++ intros ([[= <-]|Hin] & Hb & Hf & Ho).
              ** left. congruence.
              ** right. now repeat split.
    + destruct (IH acc) as (found & Hwalk & Hfound).
      exists found. split; [exact Hwalk|].
      intros o s. rewrite Hfound. split.
      * intros (Hin & Hrest). split; [now right|exact Hrest].
      * intros ([Heq|Hin] & Hb & Hf & Ho); [|now repeat split].
        injection Heq as Hs Hd. subst s isDir. simpl in Hmatch.
        rewrite Hb, String.eqb_refl in Hmatch. discriminate.
Qed.

Lemma walk_failure (fuel : nat) (baseDir chartName : string)
    (before after : list WalkEvent) (path err : string) :
  walkable Dir depth fuel before ->
  forall acc,
    walk Dir Base PathJoin isRegular fuel baseDir chartName
      (before ++ Failure path err :: after) acc = Some (inr err).
Proof.
  intros Hbefore acc.
  destruct (walk_found fuel baseDir chartName before Hbefore acc)
    as (found & Hwalk & _).
  revert acc found Hwalk.
  induction before as [|e before IH]; intros acc found Hwalk; [reflexivity|].
  inversion_clear Hbefore as [|? ? He Hrest].
  simpl in *.
  destruct (walkFn Dir Base PathJoin isRegular fuel baseDir chartName acc e)
    as [[acc'|err']|]; try discriminate.
  destruct (walk_found fuel baseDir chartName before Hrest acc')
    as (found' & Hwalk' & _).
  now apply (IH Hrest acc' found').
Qed.

End FindOverride.

Section SlashPaths.

Lemma beforeLastSlash_length (s r : string) :
  beforeLastSlash s = Some r -> String.length r < String.length s.
Proof.
  revert r; induction s as [|c s IH]; intros r; simpl; [discriminate|].
  destruct (beforeLastSlash s) as [r'|].
  - intros [= <-]. simpl. specialize (IH r' eq_refl). lia.
  - destruct (Ascii.eqb c "/"); [|discriminate].
    intros [= <-]. simpl. lia.
Qed.

Lemma slashDir_descends (d : string) :
  slashDir d = d \/ slashDepth (slashDir d) < slashDepth d.
Proof.
  unfold slashDir.
  destruct (beforeLastSlash d) as [r|] eqn:Hd.
  - pose proof (beforeLastSlash_length d r Hd) as Hlen.
    assert (Hpos : d = "/" \/ slashDepth d = S (String.length d)).
    { unfold slashDepth.
      destruct (String.eqb_spec d "/") as [->|N1]; [now left|right].
      destruct (String.eqb_spec d ".") as [->|N2]; [discriminate|reflexivity]. }
    destruct Hpos as [->|Hpos].
    + left. simpl in Hd. now injection Hd as <-.
    + right. rewrite Hpos.
      assert (Hr : slashDepth r <= S (String.length r)).
      { unfold slashDepth. destruct (_ || _); lia. }
      destruct r as [|c r]; [cbn; lia|].
      lia.
  - destruct (String.eqb_spec d ".") as [->|N]; [now left|right].
    unfold slashDepth at 2.
    destruct (String.eqb_spec d "/") as [->|N1]; [discriminate|].
    apply String.eqb_neq in N. rewrite N. cbn. lia.
Qed.

End SlashPaths.

Example test_detectPairs :
  detectPairs slashDir afterLastSlash slashJoin testIsRegular 64
    "/env" "web_service" testWalk
  = Some (inl [mkPair "/env/pair1/overrides.yaml"
                      "/env/pair1/services/web_service.yaml";
               mkPair "/env/pair2/sub/overrides.yaml"
                      "/env/pair2/sub/services/web_service.yaml"]).
Proof. vm_compute. reflexivity. Qed.

Lemma testWalk_walkable : walkable slashDir slashDepth 64 testWalk.
Proof.
  unfold walkable, testWalk.
  repeat (constructor; [apply Nat.ltb_lt; vm_compute; reflexivity|]).
  constructor.
Defined.

Lemma findOverride_within_base
    (Dir : string -> string) (PathJoin : string -> string -> string)
    (isRegular : string -> bool) (k : nat) :
  forall fuel baseDir d r,
    ancestor Dir k d = baseDir ->
    findOverride Dir PathJoin isRegular fuel baseDir d = Some r ->
    r = ""
    \/ exists j, j <= k /\ r = PathJoin (ancestor Dir j d) "overrides.yaml".
Proof.
  induction k as [|k IH]; intros fuel baseDir d r Hbase Hfind;
    (destruct fuel as [|fuel]; [discriminate|]); simpl in Hfind, Hbase.
  - destruct (isRegular (PathJoin d "overrides.yaml")).
    + injection Hfind as <-. right. exists 0. now split.
    + subst baseDir. rewrite String.eqb_refl in Hfind.
      injection Hfind as <-. now left.
  - destruct (isRegular (PathJoin d "overrides.yaml")).
    + injection Hfind as <-. right. exists 0. split; [lia|reflexivity].
    + destruct (String.eqb d baseDir); [injection Hfind as <-; now left|].
      destruct (String.eqb (Dir d) d); [injection Hfind as <-; now left|].
      destruct (IH fuel baseDir (Dir d) r Hbase Hfind) as [->|(j & Hj & ->)];
        [now left|right].
      exists (S j). split; [lia|reflexivity].
Qed.

(** X15. The upward search of [detectPairs] returns the nearest
    [overrides.yaml]: when the directories below the [k]-th ancestor of
    the starting directory hold no such file, and none of them is the base
    directory or its own parent, the search returns the file of the [k]-th
    ancestor if there is one, and comes back empty if there is none and
    that ancestor is the base directory or the root. The loop compares
    directories with the base directory as strings: when the base directory
    is, as a string, one of the ancestors that [Dir] yields, whatever the
    search returns is empty or the file of a directory at or below the base
    directory, never a file above it. (A base directory that is no such
    ancestor, one written with a trailing slash for instance, does not stop
    the search, which then goes on to the root: see
    [test_findOverride_unclean_base].) *)
Theorem nearest_override_within_base
    (Dir : string -> string) (PathJoin : string -> string -> string)
    (isRegular : string -> bool) (fuel k : nat) (baseDir d : string) :
  k < fuel ->
  (forall j, j < k ->
     isRegular (PathJoin (ancestor Dir j d) "overrides.yaml") = false
     /\ ancestor Dir j d <> baseDir
     /\ Dir (ancestor Dir j d) <> ancestor Dir j d) ->
  let candidate := PathJoin (ancestor Dir k d) "overrides.yaml" in
  (isRegular candidate = true ->
   findOverride Dir PathJoin isRegular fuel baseDir d = Some candidate)
  /\ (isRegular candidate = false ->
      ancestor Dir k d = baseDir \/ Dir (ancestor Dir k d) = ancestor Dir k d ->
      findOverride Dir PathJoin isRegular fuel baseDir d = Some "")
  /\ (forall fuel' k' r,
        ancestor Dir k' d = baseDir ->
        findOverride Dir PathJoin isRegular fuel' baseDir d = Some r ->
        r = ""
        \/ exists j,
             j <= k' /\ r = PathJoin (ancestor Dir j d) "overrides.yaml").
Proof.
  intros Hk Hbelow candidate.
  destruct (findOverride_climb Dir PathJoin isRegular fuel k baseDir d
              Hk Hbelow) as [Hfound Hempty].
  split; [exact Hfound|]. split; [exact Hempty|].
  intros fuel' k' r. apply findOverride_within_base.
Qed.

Lemma nearest_override_witness_below (j : nat) :
  j < 2 ->
  testIsRegular
    (slashJoin (ancestor slashDir j "/env/nopair/services") "overrides.yaml")
  = false
  /\ ancestor slashDir j "/env/nopair/services" <> "/env"
  /\ slashDir (ancestor slashDir j "/env/nopair/services")
     <> ancestor slashDir j "/env/nopair/services".
Proof.
  intros Hj.
  destruct j as [|[|j]]; [| |lia];
    (split; [reflexivity|split; discriminate]).
Defined.

Lemma nearest_override_witness :
  let d := "/env/nopair/services" in
  let candidate := slashJoin (ancestor slashDir 2 d) "overrides.yaml" in
  2 < 64
  /\ (testIsRegular candidate = true ->
      findOverride slashDir slashJoin testIsRegular 64 "/env" d
      = Some candidate)
  /\ (testIsRegular candidate = false ->
      ancestor slashDir 2 d = "/env"
      \/ slashDir (ancestor slashDir 2 d) = ancestor slashDir 2 d ->
      findOverride slashDir slashJoin testIsRegular 64 "/env" d = Some "")
  /\ (forall fuel' k' r,
        ancestor slashDir k' d = "/env" ->
        findOverride slashDir slashJoin testIsRegular fuel' "/env" d = Some r ->
        r = ""
        \/ exists j,
             j <= k'
             /\ r = slashJoin (ancestor slashDir j d) "overrides.yaml").
Proof.
  intros d candidate.
  assert (Hk : 2 < 64) by lia.
  split; [exact Hk|].
  exact (nearest_override_within_base slashDir slashJoin testIsRegular 64 2
           "/env" d Hk nearest_override_witness_below).
Defined.

(** With the base directory written [/env/], no ancestor of a directory
    under it is equal to it as a string: the search passes [/env] and finds
    the file above it. *)
Example test_findOverride_unclean_base :
  findOverride slashDir slashJoin testIsRegular 64 "/env/"
    "/env/nopair/services" = Some "/overrides.yaml"
  /\ findOverride slashDir slashJoin testIsRegular 64 "/env"
       "/env/nopair/services" = Some "".
Proof. split; reflexivity. Qed.

(** X16. When the walk meets no error, [detectPairs] returns the pairs in
    order, and a pair is returned exactly when its service file is an entry
    of the walk that is no directory and is named after the chart, and its
    override is what the upward search from the directory of the service
    file returns, the search having found a file. *)
Theorem detectPairs_returns_the_pairs_in_order
    (Dir Base : string -> string) (PathJoin : string -> string -> string)
    (isRegular : string -> bool) (depth : string -> nat)
    (fuel : nat) (baseDir chartName : string) (events : list WalkEvent) :
  (forall d, Dir d = d \/ depth (Dir d) < depth d) ->
  walkable Dir depth fuel events ->
  exists pairs,
    detectPairs Dir Base PathJoin isRegular fuel baseDir chartName events
    = Some (inl pairs)
    /\ StronglySorted pairLe pairs
    /\ forall o s,
         In (mkPair o s) pairs <->
         In (Visit s false) events
         /\ Base s = (chartName ++ ".yaml")%string
         /\ findOverride Dir PathJoin isRegular fuel baseDir (Dir s) = Some o
         /\ o <> "".
Proof.
  intros Hdir Hwalkable.
  destruct (walk_found Dir Base PathJoin isRegular depth Hdir fuel baseDir
              chartName events Hwalkable []) as (found & Hwalk & Hfound).
  exists (sortPairs found). unfold detectPairs. rewrite Hwalk. simpl.
  split; [reflexivity|]. split; [apply sortPairs_sorted|].
  intros o s. rewrite <- Hfound. split.
  - apply Permutation_in. symmetry. apply sortPairs_perm.
  - apply Permutation_in. apply sortPairs_perm.
Qed.

Lemma detectPairs_pairs_witness :
  (forall d, slashDir d = d \/ slashDepth (slashDir d) < slashDepth d)
  /\ walkable slashDir slashDepth 64 testWalk
  /\ exists pairs,
       detectPairs slashDir afterLastSlash slashJoin testIsRegular 64
         "/env" "web_service" testWalk = Some (inl pairs)
       /\ StronglySorted pairLe pairs
       /\ forall o s,
            In (mkPair o s) pairs <->
            In (Visit s false) testWalk
            /\ afterLastSlash s = ("web_service" ++ ".yaml")%string
            /\ findOverride slashDir slashJoin testIsRegular 64 "/env"
                 (slashDir s) = Some o
            /\ o <> "".
Proof.
  split; [exact slashDir_descends|]. split; [exact testWalk_walkable|].
  exact (detectPairs_returns_the_pairs_in_order slashDir afterLastSlash
           slashJoin testIsRegular slashDepth 64 "/env" "web_service" testWalk
           slashDir_descends testWalk_walkable).
Defined.

(** X17. When the walk meets an error, [detectPairs] returns the first error
    and no pair, whatever it had found before and whatever comes after. *)
Theorem detectPairs_returns_the_first_error
    (Dir Base : string -> string) (PathJoin : string -> string -> string)
    (isRegular : string -> bool) (depth : string -> nat)
    (fuel : nat) (baseDir chartName : string)
    (before after : list WalkEvent) (path err : string) :
  (forall d, Dir d = d \/ depth (Dir d) < depth d) ->
  walkable Dir depth fuel before ->
  detectPairs Dir Base PathJoin isRegular fuel baseDir chartName
    (before ++ Failure path err :: after)
  = Some (inr err).
Proof.
  intros Hdir Hbefore. unfold detectPairs.
  now rewrite (walk_failure Dir Base PathJoin isRegular depth Hdir fuel
                 baseDir chartName before after path err Hbefore []).
Qed.

Lemma detectPairs_error_witness :
  (forall d, slashDir d = d \/ slashDepth (slashDir d) < slashDepth d)
  /\ walkable slashDir slashDepth 64 testWalk
  /\ detectPairs slashDir afterLastSlash slashJoin testIsRegular 64
       "/env" "web_service"
       (testWalk ++ Failure "/env/secret" "permission denied"
          :: [Visit "/env/zone/web_service.yaml" false])
     = Some (inr "permission denied").
Proof.
  split; [exact slashDir_descends|]. split; [exact testWalk_walkable|].
  exact (detectPairs_returns_the_first_error slashDir afterLastSlash
           slashJoin testIsRegular slashDepth 64 "/env" "web_service"
           testWalk [Visit "/env/zone/web_service.yaml" false]
           "/env/secret" "permission denied"
           slashDir_descends testWalk_walkable).
Defined.

(** ** The flag values *)

Section Flags.

Lemma string_app_assoc (a b c : string) :
  ((a ++ b) ++ c)%string = (a ++ (b ++ c))%string.
Proof. induction a as [|x a IH]; simpl; [reflexivity|]. now rewrite IH. Qed.

Lemma Join_snoc (l : list string) (v sep : string) :
  Join (l ++ [v]) sep =
  match l with
  | [] => v
  | _ => (Join l sep ++ sep ++ v)%string
  end.
Proof.
  induction l as [|a l IH]; [reflexivity|].
  destruct l as [|b l]; [reflexivity|].
  change (Join ((a :: b :: l) ++ [v]) sep)
    with (a ++ sep ++ Join ((b :: l) ++ [v]) sep)%string.
  rewrite IH.
  change (Join (a :: b :: l) sep) with (a ++ sep ++ Join (b :: l) sep)%string.
  now rewrite !string_app_assoc.
Qed.

End Flags.

(** X18. Repeated [--ignore] flags accumulate: each call of [Set]
    succeeds and puts its value at the end of the list, so that after the
    flags the list holds the values given before and all the new values, in
    the order of the command line; and [String] shows the list as before,
    a comma and the new value (the value alone for the first flag). *)
Theorem flag_values_accumulate_in_order
    (initial values : IgnoreList) (value : string) :
  fold_left (fun l v => fst (IgnoreList_Set l v)) values initial
  = initial ++ values
  /\ snd (IgnoreList_Set initial value) = None
  /\ IgnoreList_String (fst (IgnoreList_Set initial value)) =
     match initial with
     | [] => value
     | _ => (IgnoreList_String initial ++ "," ++ value)%string
     end.
Proof.
  split; [|split; [reflexivity|apply Join_snoc]].
  revert initial. induction values as [|v values IH]; intros initial; simpl.
  - now rewrite app_nil_r.
  - rewrite IH. now rewrite <- app_assoc.
Qed.

(** ** Provided tree deep-equal to the defaults, at every depth *)

Section EqualTrees.

Variable ign : IgnoreList.

Lemma leavesOf_cons (prefix key : string) (v : Value) (rest : Map) :
  leavesOf prefix ((key, v) :: rest) =
  match v with
  | VMap pm => leavesOf (fullKeyOf prefix key) pm
  | _ => [(fullKeyOf prefix key, v)]
  end ++ leavesOf prefix rest.
Proof. now destruct v. Qed.

Lemma HasPrefix_refl (s : string) : HasPrefix s s = true.
Proof.
  induction s as [|c s IH]; simpl; [reflexivity|].
  now rewrite Ascii.eqb_refl.
Qed.

Lemma leavesOf_prefixed_bounded (n : nat) :
  forall prefix P, treeSize P < n ->
    Forall (fun l => HasPrefix (fst l) prefix = true) (leavesOf prefix P).
Proof.
  induction n as [|n IH]; intros prefix P Hn; [lia|].
  destruct P as [|[key v] rest]; [constructor|].
  rewrite treeSize_cons in Hn. rewrite leavesOf_cons.
  apply Forall_app; split; [|apply IH; lia].
  assert (Hone : Forall (fun l => HasPrefix (fst l) prefix = true)
                   [(fullKeyOf prefix key, v)])
    by (constructor; [apply HasPrefix_fullKeyOf|constructor]).
  destruct v as [| | | | | |pm]; try exact Hone.
  rewrite keyCount_VMap in Hn.
  eapply Forall_impl; [|apply (IH (fullKeyOf prefix key) pm); lia].
  intros l Hl. eapply HasPrefix_trans; [exact Hl|apply HasPrefix_fullKeyOf].
Qed.

Lemma leavesOf_prefixed (prefix : string) (P : Map) :
  Forall (fun l => HasPrefix (fst l) prefix = true) (leavesOf prefix P).
Proof. apply (leavesOf_prefixed_bounded (S (treeSize P))). lia. Qed.

(** A non-mapping key at the root is one of the leaves. *)
Lemma leavesOf_root (prefix key : string) (p : Value) (P : Map) :
  In (key, p) P -> isMap p = false ->
  In (fullKeyOf prefix key, p) (leavesOf prefix P).
Proof.
  intros Hin Hp. induction P as [|[k v] P IH]; [inversion Hin|].
  rewrite leavesOf_cons. apply in_or_app.
  destruct Hin as [[= -> ->]|Hin]; [left|right; now apply IH].
  destruct p; try (now left). discriminate.
Qed.

Let redundantLine (l : string * Value) : Issue :=
  RedundantValue (fst l) (snd l).
Let notIgnored (l : string * Value) : bool :=
  negb (shouldIgnore (fst l) ign).

Lemma validate_equal_prints_the_leaves (D P : Map) (O : option Map)
    (prefix : string) :
  noOverrides O = true -> WfMap D -> equalAtEveryKey D P ->
  stdout (validateChartValues D P O prefix ign init) =
  map redundantLine (filter notIgnored (leavesOf prefix P)).
Proof.
  revert D P O prefix.
  apply (run_ind ign (fun D P O prefix =>
           noOverrides O = true -> WfMap D -> equalAtEveryKey D P ->
           stdout (validateChartValues D P O prefix ign init) =
           map redundantLine (filter notIgnored (leavesOf prefix P)))).
  - reflexivity.
  - intros D O prefix key v rest IHrec IHrest HO Hwf Heq.
    rewrite stdout_validate_cons, leavesOf_cons, filter_app, map_app.
    simpl app. f_equal.
    2:{ apply IHrest; trivial. intros k p Hin. apply Heq. now right. }
    destruct (Heq key v (or_introl eq_refl)) as (d & Hl & Hd).
    pose proof (DeepEqual_isMap d v Hd) as Hmap.
    unfold emittedFor. rewrite validate_step.
    destruct (shouldIgnore (fullKeyOf prefix key) ign) eqn:Hi.
    + (* the key is ignored: nothing under it is printed *)
      assert (Ho : outcome D O prefix ign key v = Skip)
        by (unfold outcome; now rewrite Hi).
      rewrite Ho. simpl. symmetry.
      assert (Hnone : forall ls,
                Forall (fun l => HasPrefix (fst l) (fullKeyOf prefix key) = true)
                  ls ->
                map redundantLine (filter notIgnored ls) = []).
      { induction 1 as [|l ls Hlp _ IHls]; [reflexivity|].
        simpl. unfold notIgnored at 1.
        now rewrite (shouldIgnore_extends _ _ _ Hi Hlp). }
      destruct v as [| | | | | |pm];
        try (apply Hnone; constructor; [apply HasPrefix_refl|constructor]).
      apply Hnone. apply leavesOf_prefixed.
    + destruct d as [| | | | | |dm]; destruct v as [| | | | | |pm];
        try discriminate;
        try (unfold outcome; rewrite Hi, Hl; unfold leafOutcome;
             rewrite Hd, (overrideResets_noOverrides O key _ HO);
             simpl; unfold notIgnored; simpl; rewrite Hi; reflexivity).
      assert (Ho : outcome D O prefix ign key (VMap pm) =
                   Recurse dm pm (overridesMapOf O key) (fullKeyOf prefix key))
        by (unfold outcome; now rewrite Hi, Hl).
      rewrite Ho, validate_frame. simpl.
      apply (IHrec _ _ _ _ Ho).
      * now rewrite (overridesMapOf_noOverrides O key HO).
      * now apply (WfMap_lookup key D dm).
      * apply DeepEqual_VMap_every_key; [|exact Hd].
        apply WfMap_NoDup. now apply (WfMap_lookup key D dm).
Qed.

End EqualTrees.

(** C3, as the code has it. With no overrides tree, when every key of the
    provided tree is in the (well-formed) defaults tree with a deeply equal
    value, the comparator prints no Unexpected-key and no Type-mismatch
    line: every line it prints is a Redundant-value line, and it prints
    exactly one, in the order of the traversal, for every key of the
    provided tree, at the root or at any depth under mappings, whose value
    is not a mapping and whose path is not ignored. The flag is set exactly
    when there is such a key. *)
Theorem C3_equal_trees_only_redundant
    (D P : Map) (prefix : string) (ign : IgnoreList) :
  wfValue (VMap D) = true ->
  equalAtEveryKeyb D P = true ->
  let st' := validateChartValues D P None prefix ign init in
  let reported :=
    filter (fun l => negb (shouldIgnore (fst l) ign)) (leavesOf prefix P) in
  Forall isRedundant (stdout st')
  /\ stdout st' = map (fun l => RedundantValue (fst l) (snd l)) reported
  /\ (forall path p,
        In (path, p) (leavesOf prefix P) ->
        shouldIgnore path ign = false ->
        In (RedundantValue path p) (stdout st') /\ issuesFound st' = true)
  /\ (forall key p,
        In (key, p) P -> isMap p = false ->
        shouldIgnore (fullKeyOf prefix key) ign = false ->
        In (RedundantValue (fullKeyOf prefix key) p) (stdout st')
        /\ issuesFound st' = true)
  /\ (issuesFound st' = true <-> reported <> []).
Proof.
  intros Hwf Heq st' reported.
  apply equalAtEveryKeyb_spec in Heq.
  assert (Hout : stdout st' =
                 map (fun l => RedundantValue (fst l) (snd l)) reported)
    by (apply (validate_equal_prints_the_leaves ign D P None prefix);
        trivial).
  pose proof (validate_flagMatches ign D P None prefix init flagMatches_init)
    as Hflag.
  fold st' in Hflag. unfold flagMatches in Hflag.
  assert (Hleaf : forall path p,
            In (path, p) (leavesOf prefix P) ->
            shouldIgnore path ign = false ->
            In (RedundantValue path p) (stdout st') /\ issuesFound st' = true).
  { intros path p Hin Hi.
    assert (Hprinted : In (RedundantValue path p) (stdout st')).
    { rewrite Hout.
      apply (in_map (fun l => RedundantValue (fst l) (snd l)) reported (path, p)).
      apply filter_In. split; [exact Hin|]. simpl. now rewrite Hi. }
    split; [exact Hprinted|].
    apply Hflag. intros Hnil. now rewrite Hnil in Hprinted. }
  split; [now apply validate_equal_only_redundant|].
  split; [exact Hout|].
  split; [exact Hleaf|].
  split.
  - intros key p Hin Hp Hi. apply Hleaf; [|exact Hi].
    now apply leavesOf_root.
  - rewrite Hflag, Hout. split.
    + intros Hne Hnil. apply Hne. now rewrite Hnil.
    + intros Hne Hnil. apply Hne.
      destruct reported; [reflexivity|discriminate].
Qed.

Lemma C3_witness :
  let D := [("key1", VString "value1");
            ("image", VMap [("tag", VString "v1");
                            ("pullPolicy", VString "Always")]);
            ("resources", VMap [("limits", VMap [("cpu", VString "100m")])])] in
  let ign := ["resources"] in
  let st' := validateChartValues D D None "" ign init in
  let reported :=
    filter (fun l => negb (shouldIgnore (fst l) ign)) (leavesOf "" D) in
  wfValue (VMap D) = true
  /\ equalAtEveryKeyb D D = true
  /\ Forall isRedundant (stdout st')
  /\ stdout st' = map (fun l => RedundantValue (fst l) (snd l)) reported
  /\ (forall path p,
        In (path, p) (leavesOf "" D) ->
        shouldIgnore path ign = false ->
        In (RedundantValue path p) (stdout st') /\ issuesFound st' = true)
  /\ (forall key p,
        In (key, p) D -> isMap p = false ->
        shouldIgnore (fullKeyOf "" key) ign = false ->
        In (RedundantValue (fullKeyOf "" key) p) (stdout st')
        /\ issuesFound st' = true)
  /\ (issuesFound st' = true <-> reported <> []).
Proof.
  intros D ign st' reported.
  split; [reflexivity|]. split; [reflexivity|].
  exact (C3_equal_trees_only_redundant D D "" ign eq_refl eq_refl).
Defined.

Example test_equal_trees_nested_leaves :
  let D := [("key1", VString "value1");
            ("image", VMap [("tag", VString "v1");
                            ("pullPolicy", VString "Always")]);
            ("resources", VMap [("limits", VMap [("cpu", VString "100m")])])] in
  stdout (validateChartValues D D None "" ["resources"] init)
  = [RedundantValue "key1" (VString "value1");
     RedundantValue "image.tag" (VString "v1");
     RedundantValue "image.pullPolicy" (VString "Always")]
  /\ leavesOf "" D
     = [("key1", VString "value1");
        ("image.tag", VString "v1");
        ("image.pullPolicy", VString "Always");
        ("resources.limits.cpu", VString "100m")].
Proof. split; reflexivity. Qed.
